(** * QuantumAi dataset registry: a shallow embedding of [Quantum.sol]

    The contract [QuantumAi] (with its bases [QuantumAiStorage],
    [QuantumAiPayments], [QuantumAiDatasets], [QuantumAiPurchase]) is
    embedded as state-passing functions over a record of its storage
    variables.  Solidity mappings are finite maps read with a default
    value, unsigned integers are [N] with the checked arithmetic of
    Solidity 0.8 written out, [require] and panics are a revert outcome,
    and the external ERC-20 call of [purchaseDataset] is a parameter that
    may re-enter the contract before it returns. *)

From stdpp Require Import gmap strings list fin_maps.
From Stdlib Require Import NArith Lia Ascii.

Local Open Scope N_scope.

(** ** Machine integers *)

Module Uint.
Definition max (w : N) : N := 2 ^ w - 1.
Definition max256 : N := max 256.
Definition max128 : N := max 128.
Definition max48 : N := max 48.
(** Explicit narrowing conversion [uintW(x)]: truncation, no check. *)
Definition cast (w : N) (x : N) : N := x mod 2 ^ w.
End Uint.

Definition address := N.
Definition zero_address : address := 0.

(** ** Storage layout ([QuantumAiStorage]) *)

Record Dataset := mkDataset {
  datasetCID : string;
  analysisCID : string;
  uploader : address;
  isPublic : bool;
  isPrivate : bool;
  timestamp : N;      (* uint48 *)
  views : N;          (* uint48 *)
  downloads : N;      (* uint48 *)
  isPaid : bool;
  priceInFIL : N;     (* uint128 *)
  earnings : N        (* uint128 *)
}.

Record PaymentToken := mkPaymentToken {
  tokenAddress : address;
  isAccepted : bool;
  symbol : string
}.

(** The value every unwritten slot of a mapping reads as. *)
Definition default_Dataset : Dataset :=
  mkDataset "" "" zero_address false false 0 0 0 false 0 0.
Definition default_PaymentToken : PaymentToken :=
  mkPaymentToken zero_address false "".

Inductive Event :=
| PaymentTokenAdded (token : address) (sym : string)
| DatasetUploaded (id : N) (who : address) (pub paid : bool) (price : N)
| PublicDatasetListed (id : N) (who : address)
| DatasetPurchased (id : N) (buyer publisher : address) (amount : N) (token : address).

(** [ReentrancyGuard._status] *)
Inductive GuardStatus := NOT_ENTERED | ENTERED.

Record State := mkState {
  cidExists : gmap string bool;
  datasets : gmap N Dataset;
  userUploads : gmap address (list N);
  (* mapping(uint256 => mapping(address => bool)), keyed by the pair *)
  hasAccess : gmap (N * address) bool;
  publisherEarnings : gmap address N;
  totalPlatformEarnings : N;
  paymentTokens : gmap address PaymentToken;
  acceptedTokenByIndex : gmap N address;
  acceptedTokenCount : N;
  datasetCount : N;
  owner : address;                 (* Ownable *)
  status : GuardStatus;            (* ReentrancyGuard *)
  events : list Event              (* the log, newest last *)
}.

(** State of a freshly deployed contract: [Ownable(msg.sender)], all else zero. *)
Definition initial (deployer : address) : State :=
  mkState ∅ ∅ ∅ ∅ ∅ 0 ∅ ∅ 0 0 deployer NOT_ENTERED [].

(** *** Reads (a missing key reads as the type's zero value) *)

Definition cid_used (st : State) (c : string) : bool :=
  default false (cidExists st !! c).
Definition dataset (st : State) (id : N) : Dataset :=
  default default_Dataset (datasets st !! id).
Definition uploads_of (st : State) (a : address) : list N :=
  default [] (userUploads st !! a).
Definition has_access (st : State) (id : N) (a : address) : bool :=
  default false (hasAccess st !! (id, a)).
Definition earned (st : State) (a : address) : N :=
  default 0 (publisherEarnings st !! a).
Definition payment_token (st : State) (t : address) : PaymentToken :=
  default default_PaymentToken (paymentTokens st !! t).

(** *** Writes *)

Definition set_cidExists (c : string) (b : bool) (st : State) : State :=
  mkState (<[c := b]> (cidExists st)) (datasets st) (userUploads st)
    (hasAccess st) (publisherEarnings st) (totalPlatformEarnings st)
    (paymentTokens st) (acceptedTokenByIndex st) (acceptedTokenCount st)
    (datasetCount st) (owner st) (status st) (events st).
Definition set_dataset (id : N) (d : Dataset) (st : State) : State :=
  mkState (cidExists st) (<[id := d]> (datasets st)) (userUploads st)
    (hasAccess st) (publisherEarnings st) (totalPlatformEarnings st)
    (paymentTokens st) (acceptedTokenByIndex st) (acceptedTokenCount st)
    (datasetCount st) (owner st) (status st) (events st).
Definition push_userUploads (a : address) (id : N) (st : State) : State :=
  mkState (cidExists st) (datasets st)
    (<[a := uploads_of st a ++ [id]]> (userUploads st))
    (hasAccess st) (publisherEarnings st) (totalPlatformEarnings st)
    (paymentTokens st) (acceptedTokenByIndex st) (acceptedTokenCount st)
    (datasetCount st) (owner st) (status st) (events st).
Definition set_hasAccess (id : N) (a : address) (b : bool) (st : State) : State :=
  mkState (cidExists st) (datasets st) (userUploads st)
    (<[(id, a) := b]> (hasAccess st)) (publisherEarnings st)
    (totalPlatformEarnings st)
    (paymentTokens st) (acceptedTokenByIndex st) (acceptedTokenCount st)
    (datasetCount st) (owner st) (status st) (events st).
Definition set_publisherEarnings (a : address) (v : N) (st : State) : State :=
  mkState (cidExists st) (datasets st) (userUploads st)
    (hasAccess st) (<[a := v]> (publisherEarnings st))
    (totalPlatformEarnings st)
    (paymentTokens st) (acceptedTokenByIndex st) (acceptedTokenCount st)
    (datasetCount st) (owner st) (status st) (events st).
Definition set_totalPlatformEarnings (v : N) (st : State) : State :=
  mkState (cidExists st) (datasets st) (userUploads st)
    (hasAccess st) (publisherEarnings st) v
    (paymentTokens st) (acceptedTokenByIndex st) (acceptedTokenCount st)
    (datasetCount st) (owner st) (status st) (events st).
Definition set_paymentToken (t : address) (p : PaymentToken) (st : State) : State :=
  mkState (cidExists st) (datasets st) (userUploads st)
    (hasAccess st) (publisherEarnings st) (totalPlatformEarnings st)
    (<[t := p]> (paymentTokens st)) (acceptedTokenByIndex st)
    (acceptedTokenCount st)
    (datasetCount st) (owner st) (status st) (events st).
Definition set_acceptedTokenByIndex (i : N) (t : address) (st : State) : State :=
  mkState (cidExists st) (datasets st) (userUploads st)
    (hasAccess st) (publisherEarnings st) (totalPlatformEarnings st)
    (paymentTokens st) (<[i := t]> (acceptedTokenByIndex st))
    (acceptedTokenCount st)
    (datasetCount st) (owner st) (status st) (events st).
Definition set_acceptedTokenCount (v : N) (st : State) : State :=
  mkState (cidExists st) (datasets st) (userUploads st)
    (hasAccess st) (publisherEarnings st) (totalPlatformEarnings st)
    (paymentTokens st) (acceptedTokenByIndex st) v
    (datasetCount st) (owner st) (status st) (events st).
Definition set_datasetCount (v : N) (st : State) : State :=
  mkState (cidExists st) (datasets st) (userUploads st)
    (hasAccess st) (publisherEarnings st) (totalPlatformEarnings st)
    (paymentTokens st) (acceptedTokenByIndex st) (acceptedTokenCount st)
    v (owner st) (status st) (events st).
Definition set_status (s : GuardStatus) (st : State) : State :=
  mkState (cidExists st) (datasets st) (userUploads st)
    (hasAccess st) (publisherEarnings st) (totalPlatformEarnings st)
    (paymentTokens st) (acceptedTokenByIndex st) (acceptedTokenCount st)
    (datasetCount st) (owner st) s (events st).
Definition log (e : Event) (st : State) : State :=
  mkState (cidExists st) (datasets st) (userUploads st)
    (hasAccess st) (publisherEarnings st) (totalPlatformEarnings st)
    (paymentTokens st) (acceptedTokenByIndex st) (acceptedTokenCount st)
    (datasetCount st) (owner st) (status st) (events st ++ [e]).

(** Field updates of a stored [Dataset]. *)
Definition with_views (v : N) (d : Dataset) : Dataset :=
  mkDataset (datasetCID d) (analysisCID d) (uploader d) (isPublic d)
    (isPrivate d) (timestamp d) v (downloads d) (isPaid d) (priceInFIL d)
    (earnings d).
Definition with_downloads (v : N) (d : Dataset) : Dataset :=
  mkDataset (datasetCID d) (analysisCID d) (uploader d) (isPublic d)
    (isPrivate d) (timestamp d) (views d) v (isPaid d) (priceInFIL d)
    (earnings d).
Definition with_earnings (v : N) (d : Dataset) : Dataset :=
  mkDataset (datasetCID d) (analysisCID d) (uploader d) (isPublic d)
    (isPrivate d) (timestamp d) (views d) (downloads d) (isPaid d)
    (priceInFIL d) v.

(** ** Execution monad: a call either returns or reverts

    A revert keeps the state reached when it was raised, so that what a
    function had already written is visible; [transact] below is the EVM
    rolling the whole call back. *)

Inductive Error :=
| ReentrantCall          (* ReentrancyGuard *)
| NotOwner               (* Ownable: onlyOwner *)
| Zero | Exists          (* addPaymentToken *)
| Not_uploader | No_view
| CID_exists | CID_empty | Public_Private | Private_not_paid | Price_0
| No_download
| Not_public | Free | Already | Own | Token
| Auth
| TransferReverted       (* the external call itself reverted *)
| Panic_overflow         (* Panic(0x11) *)
| Panic_index.           (* Panic(0x32) *)

Inductive Outcome (A : Type) :=
| Ok (a : A) (st : State)
| Revert (e : Error) (st : State).
Arguments Ok {A} a st.
Arguments Revert {A} e st.

Definition M (A : Type) : Type := State → Outcome A.

#[global] Instance M_ret : MRet M := λ A a st, Ok a st.
#[global] Instance M_bind : MBind M := λ A B f m st,
  match m st with
  | Ok a st' => f a st'
  | Revert e st' => Revert e st'
  end.

Definition gets {A} (f : State → A) : M A := λ st, Ok (f st) st.
Definition modify (f : State → State) : M unit := λ st, Ok tt (f st).
Definition revert {A} (e : Error) : M A := λ st, Revert e st.
Definition require (b : bool) (e : Error) : M unit :=
  if b then mret tt else revert e.
Definition emit (e : Event) : M unit := modify (log e).

(** Checked addition at width [w]. *)
Definition checked_add (w : N) (a b : N) : M N :=
  if a + b <=? Uint.max w then mret (a + b) else revert Panic_overflow.

(** The state a call leaves behind: its own on success, the caller's on revert. *)
Definition commit {A} (st : State) (o : Outcome A) : State :=
  match o with
  | Ok _ st' => st'
  | Revert _ _ => st
  end.

Definition succeeded {A} (o : Outcome A) : bool :=
  match o with Ok _ _ => true | Revert _ _ => false end.

Definition error_of {A} (o : Outcome A) : option Error :=
  match o with Ok _ _ => None | Revert e _ => Some e end.

(** State reached inside the call, whether it returned or reverted. *)
Definition reached {A} (o : Outcome A) : State :=
  match o with Ok _ st => st | Revert _ st => st end.

(** ** Modifiers *)

(** OpenZeppelin [nonReentrant]: refuse when entered, hold the flag for the body. *)
Definition nonReentrant (body : M unit) : M unit :=
  s ← gets status;
  require (match s with ENTERED => false | NOT_ENTERED => true end) ReentrantCall;;
  modify (set_status ENTERED);;
  body;;
  modify (set_status NOT_ENTERED).

Definition onlyOwner {A} (sender : address) (body : M A) : M A :=
  o ← gets owner;
  require (o =? sender) NotOwner;;
  body.

Definition canView {A} (sender : address) (id : N) (body : M A) : M A :=
  d ← gets (λ st, dataset st id);
  require ((uploader d =? sender) || (isPublic d && negb (isPrivate d))) No_view;;
  body.

Definition canDownload {A} (sender : address) (id : N) (body : M A) : M A :=
  d ← gets (λ st, dataset st id);
  a ← gets (λ st, has_access st id sender);
  require ((uploader d =? sender) || negb (isPaid d) || a) No_download;;
  body.

(** ** [QuantumAiPayments] *)

Definition addPaymentToken (sender : address) (token : address) (sym : string) : M unit :=
  onlyOwner sender (
    require (negb (token =? zero_address)) Zero;;
    p ← gets (λ st, payment_token st token);
    require (negb (isAccepted p)) Exists;;
    modify (set_paymentToken token (mkPaymentToken token true sym));;
    n ← gets acceptedTokenCount;
    n' ← checked_add 256 n 1;
    modify (set_acceptedTokenCount n');;
    modify (set_acceptedTokenByIndex n token);;
    emit (PaymentTokenAdded token sym)).

Definition isTokenAccepted (st : State) (token : address) : bool :=
  isAccepted (payment_token st token).

(** ** [QuantumAiDatasets] *)

Definition uploadDataset (sender : address) (now : N)
    (_cid _analysis : string) (_public _private _paid : bool) (_price : N) : M unit :=
  nonReentrant (
    used ← gets (λ st, cid_used st _cid);
    require (negb used) CID_exists;;
    require (0 <? N.of_nat (String.length _cid)) CID_empty;;
    require (negb (_public && _private)) Public_Private;;
    (if _private then require (negb _paid) Private_not_paid else mret tt);;
    (if _paid then require (0 <? _price) Price_0 else mret tt);;
    modify (set_cidExists _cid true);;
    id ← gets datasetCount;
    n' ← checked_add 256 id 1;
    modify (set_datasetCount n');;
    modify (set_dataset id
      (mkDataset _cid _analysis sender _public _private (Uint.cast 48 now)
         0 0 _paid (Uint.cast 128 _price) 0));;
    modify (push_userUploads sender id);;
    emit (DatasetUploaded id sender _public _paid (Uint.cast 128 _price));;
    (if _public && negb _private
     then emit (PublicDatasetListed id sender) else mret tt)).

Definition getDataset (sender : address) (id : N) : M Dataset :=
  canView sender id (gets (λ st, dataset st id)).

Definition incrementViews (sender : address) (id : N) : M unit :=
  canView sender id (
    v ← gets (λ st, views (dataset st id));
    v' ← checked_add 48 v 1;
    modify (λ st, set_dataset id (with_views v' (dataset st id)) st)).

Definition totalDatasets (st : State) : N := datasetCount st.

(** ** [QuantumAiPurchase] *)

(** What [IERC20(token).transferFrom] can do to the caller: revert, or
    return a boolean; the call decodes the boolean and drops it. *)
Inductive TransferResult := TransferTrue | TransferFalse | TransferReverts.

Section Purchase.
(** The external call, as seen from the contract: it may change the
    contract's storage (by calling back into it) before it answers. *)
Variable transferFrom : address → address → address → N → M bool.

Definition purchaseDataset (sender : address) (id : N) (token : address) : M unit :=
  nonReentrant (
    (* [Dataset storage d = datasets[id]]: every [d.x] reads storage then *)
    d ← gets (λ st, dataset st id);
    require (isPublic d && negb (isPrivate d)) Not_public;;
    require (isPaid d) Free;;
    a ← gets (λ st, has_access st id sender);
    require (negb a) Already;;
    require (negb (uploader d =? sender)) Own;;
    t ← gets (λ st, payment_token st token);
    require (isAccepted t) Token;;
    _ ← transferFrom token sender (uploader d) (priceInFIL d);
    modify (set_hasAccess id sender true);;
    d1 ← gets (λ st, dataset st id);
    e' ← checked_add 128 (earnings d1) (priceInFIL d1);
    modify (set_dataset id (with_earnings e' d1));;
    d2 ← gets (λ st, dataset st id);
    pe ← gets (λ st, earned st (uploader d2));
    pe' ← checked_add 128 pe (priceInFIL d2);
    modify (set_publisherEarnings (uploader d2) pe');;
    d3 ← gets (λ st, dataset st id);
    tp ← gets totalPlatformEarnings;
    tp' ← checked_add 128 tp (priceInFIL d3);
    modify (set_totalPlatformEarnings tp');;
    d4 ← gets (λ st, dataset st id);
    emit (DatasetPurchased id sender (uploader d4) (priceInFIL d4) token)).
End Purchase.

Definition incrementDownloads (sender : address) (id : N) : M unit :=
  canDownload sender id (
    v ← gets (λ st, downloads (dataset st id));
    v' ← checked_add 48 v 1;
    modify (λ st, set_dataset id (with_downloads v' (dataset st id)) st)).

Definition getMyEarnings (st : State) (sender : address) : N := earned st sender.

Definition getDatasetEarnings (sender : address) (id : N) : M N :=
  d ← gets (λ st, dataset st id);
  o ← gets owner;
  require ((uploader d =? sender) || (o =? sender)) Auth;;
  gets (λ st, earnings (dataset st id)).

(** ** [QuantumAi]: queries *)

(** The ids [0 .. n-1] that a [for (i = 0; i < n; i++)] loop visits. *)
Definition ids (n : N) : list N := N.of_nat <$> seq 0 (N.to_nat n).

(** The listing condition both loops test. *)
Definition qualifies (d : Dataset) : bool := isPublic d && negb (isPrivate d).

(** First loop of [getPublicDatasetPage]: [total] counts the listed datasets.
    The loop counters ([i], [total], and [idx], [cursor] below) never exceed
    [datasetCount], itself a [uint256], so their checked increments cannot
    trap and are written as plain additions. *)
Fixpoint count_loop (st : State) (todo : list N) (total : N) : N :=
  match todo with
  | [] => total
  | i :: rest =>
      count_loop st rest (if qualifies (dataset st i) then total + 1 else total)
  end.

(** Second loop: [p[idx++] = datasets[i]] for cursors in [[start, end)],
    leaving at the first cursor that reaches [end]. *)
Fixpoint page_loop (st : State) (start end_ : N) (todo : list N)
    (p : list Dataset) (idx cursor : N) : Error + list Dataset :=
  match todo with
  | [] => inr p
  | i :: rest =>
      if qualifies (dataset st i) then
        let stored :=
          if (start <=? cursor) && (cursor <? end_) then
            if idx <? N.of_nat (length p)
            then inr (<[N.to_nat idx := dataset st i]> p, idx + 1)
            else inl Panic_index
          else inr (p, idx) in
        match stored with
        | inl e => inl e
        | inr (p', idx') =>
            let cursor' := cursor + 1 in
            if end_ <=? cursor' then inr p'
            else page_loop st start end_ rest p' idx' cursor'
        end
      else page_loop st start end_ rest p idx cursor
  end.

Definition getPublicDatasetPage (st : State) (start limit : N)
    : Error + (list Dataset * N) :=
  let total := count_loop st (ids (datasetCount st)) 0 in
  if total <=? start then inr ([], 0)
  else if Uint.max256 <? start + limit then inl Panic_overflow
  else
    let end0 := start + limit in
    let end_ := if total <? end0 then total else end0 in
    match page_loop st start end_ (ids (datasetCount st))
            (replicate (N.to_nat (end_ - start)) default_Dataset) 0 0 with
    | inl e => inl e
    | inr p => inr (p, end_)
    end.

Definition getMyDatasetIds (st : State) (sender : address) : list N :=
  uploads_of st sender.

(** ** Calls, re-entrancy and transactions *)

(** A call into the contract.  A purchase carries what its token does
    when asked to transfer: the calls it makes back into the contract
    (each one caught if it reverts), then its answer. *)
#[local] Unset Elimination Schemes.
Inductive Call :=
| CallAddPaymentToken (sender token : address) (sym : string)
| CallUploadDataset (sender : address) (now : N) (cid analysis : string)
    (pub priv paid : bool) (price : N)
| CallIncrementViews (sender : address) (id : N)
| CallIncrementDownloads (sender : address) (id : N)
| CallPurchaseDataset (sender : address) (id : N) (token : address)
    (reentry : list Call) (answer : TransferResult).
#[local] Set Elimination Schemes.

Definition answer_of (r : TransferResult) : M bool :=
  match r with
  | TransferTrue => mret true
  | TransferFalse => mret false
  | TransferReverts => revert TransferReverted
  end.

(** The token's side of [transferFrom]: run its nested calls, then answer. *)
Definition token_call (run : Call → M unit) (reentry : list Call)
    (answer : TransferResult) : M bool :=
  modify (λ st, fold_left (λ s c, commit s (run c s)) reentry st);;
  answer_of answer.

Fixpoint exec (c : Call) : M unit :=
  match c with
  | CallAddPaymentToken sender token sym => addPaymentToken sender token sym
  | CallUploadDataset sender now cid analysis pub priv paid price =>
      uploadDataset sender now cid analysis pub priv paid price
  | CallIncrementViews sender id => incrementViews sender id
  | CallIncrementDownloads sender id => incrementDownloads sender id
  | CallPurchaseDataset sender id token reentry answer =>
      purchaseDataset (λ _ _ _ _, token_call exec reentry answer)
        sender id token
  end.

(** A transaction: the call's effects are kept only if it returns. *)
Definition transact (st : State) (c : Call) : State := commit st (exec c st).

Inductive reachable : State → Prop :=
| reach_deploy (deployer : address) : reachable (initial deployer)
| reach_call (st : State) (c : Call) : reachable st → reachable (transact st c).

(** Induction on calls that reaches the calls nested in a purchase. *)
Fixpoint Call_nested_ind (P : Call → Prop)
    (Hadd : ∀ sender token sym, P (CallAddPaymentToken sender token sym))
    (Hupload : ∀ sender now cid analysis pub priv paid price,
        P (CallUploadDataset sender now cid analysis pub priv paid price))
    (Hviews : ∀ sender id, P (CallIncrementViews sender id))
    (Hdownloads : ∀ sender id, P (CallIncrementDownloads sender id))
    (Hpurchase : ∀ sender id token reentry answer,
        Forall P reentry → P (CallPurchaseDataset sender id token reentry answer))
    (c : Call) {struct c} : P c :=
  match c with
  | CallAddPaymentToken sender token sym => Hadd sender token sym
  | CallUploadDataset sender now cid analysis pub priv paid price =>
      Hupload sender now cid analysis pub priv paid price
  | CallIncrementViews sender id => Hviews sender id
  | CallIncrementDownloads sender id => Hdownloads sender id
  | CallPurchaseDataset sender id token reentry answer =>
      Hpurchase sender id token reentry answer
        ((fix all (l : list Call) : Forall P l :=
            match l with
            | [] => List.Forall_nil P
            | c' :: l' =>
                @List.Forall_cons Call P c' l'
                  (Call_nested_ind P Hadd Hupload Hviews Hdownloads Hpurchase c')
                  (all l')
            end) reentry)
  end.

(** ** Specification vocabulary *)

(** The records at the ids [l], in that order, that pass the listing test. *)
Definition listed (st : State) (l : list N) : list Dataset :=
  filter (λ d, qualifies d = true) (dataset st <$> l).

(** The datasets a public listing shows, in ascending id order. *)
Definition public_datasets (st : State) : list Dataset :=
  listed st (ids (datasetCount st)).

(** The "qualifying total" of the pagination query. *)
Definition public_total (st : State) : N :=
  N.of_nat (length (public_datasets st)).

(** The exhausted answer of the pagination query carries a cursor that
    differs from the valid cursor value 0. *)
Definition sentinel_distinct_from_cursor_zero : Prop :=
  ∀ st start limit page next,
    public_total st <= start →
    getPublicDatasetPage st start limit = inr (page, next) → next ≠ 0.

Definition sumN (l : list N) : N := foldr N.add 0 l.

(** Sum of the [earnings] fields of the datasets uploaded by [u]. *)
Definition owned_earnings (st : State) (u : address) : N :=
  sumN ((λ i, if uploader (dataset st i) =? u
              then earnings (dataset st i) else 0) <$> ids (datasetCount st)).

(** The two bounded counters of a record and the call that bumps each. *)
Inductive Counter := Views | Downloads.

Definition counter_value (k : Counter) (d : Dataset) : N :=
  match k with Views => views d | Downloads => downloads d end.

Definition increment (k : Counter) (sender : address) (id : N) : Call :=
  match k with
  | Views => CallIncrementViews sender id
  | Downloads => CallIncrementDownloads sender id
  end.

(** The preconditions of [uploadDataset], negated. *)
Definition upload_violation (st : State) (cid : string)
    (pub priv paid : bool) (price : N) : Prop :=
  cid = "" ∨ cid_used st cid = true ∨ (pub = true ∧ priv = true) ∨
  (priv = true ∧ paid = true) ∨ (paid = true ∧ price <= 0).

(** The revert reason names a precondition that is violated. *)
Definition upload_error_matches (e : Error) (st : State) (cid : string)
    (pub priv paid : bool) (price : N) : Prop :=
  match e with
  | CID_exists => cid_used st cid = true
  | CID_empty => cid = ""
  | Public_Private => pub = true ∧ priv = true
  | Private_not_paid => priv = true ∧ paid = true
  | Price_0 => paid = true ∧ price <= 0
  | _ => False
  end.

(** Calls that carry the [nonReentrant] modifier in the source. *)
Definition is_nonReentrant (c : Call) : bool :=
  match c with
  | CallUploadDataset _ _ _ _ _ _ _ _ => true
  | CallPurchaseDataset _ _ _ _ _ => true
  | _ => false
  end.

(** The mutators named by the guard rule of the specification. *)
Definition is_mutator (c : Call) : bool :=
  match c with
  | CallAddPaymentToken _ _ _ => false
  | _ => true
  end.

(** ** Ledger invariants *)

(** A record that no upload has written: everything but the two counters
    still has its zero value. *)
Definition blank (d : Dataset) : Prop :=
  with_views 0 (with_downloads 0 d) = default_Dataset.

(** The fields of a record that only [uploadDataset] writes. *)
Definition listing (d : Dataset) : string * string * address * bool * bool * N * bool * N :=
  (datasetCID d, analysisCID d, uploader d, isPublic d, isPrivate d,
   timestamp d, isPaid d, priceInFIL d).

Record inv (st : State) : Prop := mkInv {
  inv_unassigned : ∀ id, datasetCount st <= id → blank (dataset st id);
  inv_access : ∀ id a, has_access st id a = true →
    qualifies (dataset st id) = true ∧ isPaid (dataset st id) = true;
  inv_earnings : ∀ u, earned st u = owned_earnings st u
}.

Record evolves (st st' : State) : Prop := mkEvolves {
  ev_count : datasetCount st <= datasetCount st';
  ev_listing : ∀ id, id < datasetCount st →
    listing (dataset st' id) = listing (dataset st id);
  ev_access : ∀ id a, has_access st id a = true → has_access st' id a = true
}.

Definition preserves (st st' : State) : Prop :=
  inv st → inv st' ∧ evolves st st' ∧ status st' = status st.

(** What nested calls can do while the guard is held. *)
Definition nested (s s' : State) : Prop :=
  status s = ENTERED →
  status s' = ENTERED ∧ hasAccess s' = hasAccess s ∧
  publisherEarnings s' = publisherEarnings s ∧
  datasetCount s' = datasetCount s ∧
  ∀ j, listing (dataset s' j) = listing (dataset s j) ∧
       earnings (dataset s' j) = earnings (dataset s j).

(** ** The guard rule *)

(** The rule as the specification words it: while a call is in flight
    (the flag is held), every mutator is refused. *)
Definition rejects_reentry (c : Call) : Prop :=
  ∀ st, status st = ENTERED → succeeded (exec c st) = false.

Definition all_mutators_guarded : Prop :=
  ∀ c, is_mutator c = true → rejects_reentry c.

(** ** A worked ledger

    The owner (1) allowlists token 100; publisher 2 uploads the public paid
    dataset "A" at price 10; buyer 3 purchases it. *)

Definition demo_listed : State :=
  transact
    (transact (initial 1) (CallAddPaymentToken 1 100 "TOK"))
    (CallUploadDataset 2 1000 "A" "" true false true 10).

Definition demo_sold : State :=
  transact demo_listed (CallPurchaseDataset 3 0 100 [] TransferTrue).

(** The same ledger once publisher 2 has also uploaded the public free
    dataset "B", which gets id 1. *)
Definition demo_two : State :=
  transact demo_listed (CallUploadDataset 2 1001 "B" "" true false false 0).

(** Buyer 3 purchases dataset 0; token 100, before it answers, calls
    [incrementViews(1)] and [incrementDownloads(1)] on the contract. *)
Definition reentering_purchase : Call :=
  CallPurchaseDataset 3 0 100
    [CallIncrementViews 100 1; CallIncrementDownloads 100 1] TransferTrue.

(** A ledger whose first record has its view counter at the top of [uint48]. *)
Definition demo_saturated : State :=
  set_dataset 0 (with_views (Uint.max 48) (dataset demo_listed 0)) demo_listed.

(** ** Further queries of [QuantumAi] *)

(** Public getter of [acceptedTokenByIndex]. *)
Definition accepted_token_at (st : State) (i : N) : address :=
  default zero_address (acceptedTokenByIndex st !! i).

(** First loop of [getMyPurchasedIds]: [ids[cnt++] = i] for every id the
    caller holds a grant for and did not upload. *)
Fixpoint purchased_loop (st : State) (sender : address) (todo : list N)
    (arr : list N) (cnt : N) : Error + (list N * N) :=
  match todo with
  | [] => inr (arr, cnt)
  | i :: rest =>
      if has_access st i sender && negb (uploader (dataset st i) =? sender)
      then
        if cnt <? N.of_nat (length arr)
        then purchased_loop st sender rest (<[N.to_nat cnt := i]> arr) (cnt + 1)
        else inl Panic_index
      else purchased_loop st sender rest arr cnt
  end.

(** Second loop: [res[i] = ids[i]], both accesses bounds-checked. *)
Fixpoint copy_loop (todo : list N) (src res : list N) : Error + list N :=
  match todo with
  | [] => inr res
  | i :: rest =>
      match src !! N.to_nat i with
      | None => inl Panic_index
      | Some v =>
          if i <? N.of_nat (length res)
          then copy_loop rest src (<[N.to_nat i := v]> res)
          else inl Panic_index
      end
  end.

Definition getMyPurchasedIds (st : State) (sender : address) : Error + list N :=
  match purchased_loop st sender (ids (datasetCount st))
          (replicate (N.to_nat (datasetCount st)) 0) 0 with
  | inl e => inl e
  | inr (arr, cnt) => copy_loop (ids cnt) arr (replicate (N.to_nat cnt) 0)
  end.

(** ** The event log, read back *)

Definition uploaded_id (e : Event) : option N :=
  match e with DatasetUploaded id _ _ _ _ => Some id | _ => None end.

Definition listed_id (e : Event) : option N :=
  match e with PublicDatasetListed id _ => Some id | _ => None end.

Definition purchase_amount (e : Event) : option N :=
  match e with DatasetPurchased _ _ _ amount _ => Some amount | _ => None end.

Definition added_token (e : Event) : option address :=
  match e with PaymentTokenAdded token _ => Some token | _ => None end.

(** Sum of the [earnings] fields of all assigned records. *)
Definition total_earnings (st : State) : N :=
  sumN ((λ i, earnings (dataset st i)) <$> ids (datasetCount st)).

(** ** Registry invariants beyond the ledger ones *)

Record registry_ok (st : State) : Prop := mkRegistryOk {
  reg_cid_marked : ∀ i, i < datasetCount st →
    datasetCID (dataset st i) ≠ "" ∧
    cid_used st (datasetCID (dataset st i)) = true;
  reg_cid_unique : ∀ i j, i < datasetCount st → j < datasetCount st →
    datasetCID (dataset st i) = datasetCID (dataset st j) → i = j;
  reg_cid_owner : ∀ c, cid_used st c = true →
    ∃ i, i < datasetCount st ∧ datasetCID (dataset st i) = c;
  reg_flags : ∀ i,
    isPublic (dataset st i) && isPrivate (dataset st i) = false ∧
    isPrivate (dataset st i) && isPaid (dataset st i) = false;
  reg_index : ∀ u,
    uploads_of st u =
    filter (λ i, uploader (dataset st i) = u) (ids (datasetCount st));
  reg_uploaded_log : omap uploaded_id (events st) = ids (datasetCount st);
  reg_listed_log :
    omap listed_id (events st) =
    filter (λ i, qualifies (dataset st i) = true) (ids (datasetCount st))
}.

Record tokens_ok (st : State) : Prop := mkTokensOk {
  tok_zero : isTokenAccepted st zero_address = false;
  tok_self : ∀ t, isTokenAccepted st t = true →
    tokenAddress (payment_token st t) = t;
  tok_listed : ∀ i, i < acceptedTokenCount st →
    isTokenAccepted st (accepted_token_at st i) = true;
  tok_unique : ∀ i j, i < acceptedTokenCount st → j < acceptedTokenCount st →
    accepted_token_at st i = accepted_token_at st j → i = j;
  tok_found : ∀ t, isTokenAccepted st t = true →
    ∃ i, i < acceptedTokenCount st ∧ accepted_token_at st i = t;
  tok_log :
    omap added_token (events st) =
    accepted_token_at st <$> ids (acceptedTokenCount st)
}.

Record settlement_ok (st : State) : Prop := mkSettlementOk {
  settle_not_uploader : ∀ id a, has_access st id a = true →
    uploader (dataset st id) ≠ a;
  settle_total : totalPlatformEarnings st = total_earnings st;
  settle_logged : totalPlatformEarnings st
    = sumN (omap purchase_amount (events st));
  settle_grant_logged : ∀ id a, has_access st id a = true ↔
    ∃ publisher amount token,
      DatasetPurchased id a publisher amount token ∈ events st
}.

(** ** Front end: [isValidContractAddress] of [App.jsx], on strings

    The argument is taken to be a string (the function answers [false] to
    anything else); its characters are modelled as bytes, which is exact
    for every string the tests below can accept. *)

(** [String.prototype.includes]. *)
Fixpoint includes (s sub : string) : bool :=
  String.prefix sub s ||
  match s with
  | EmptyString => false
  | String _ s' => includes s' sub
  end.

(** The character class [[a-fA-F0-9]]. *)
Definition is_hex_digit (c : Ascii.ascii) : bool :=
  let n := Ascii.N_of_ascii c in
  ((48 <=? n) && (n <=? 57)) || ((97 <=? n) && (n <=? 102)) ||
  ((65 <=? n) && (n <=? 70)).

(** [[a-fA-F0-9]{n}$] *)
Fixpoint hex_digits_to_end (n : nat) (s : string) : bool :=
  match n, s with
  | O, EmptyString => true
  | S n', String c s' => is_hex_digit c && hex_digits_to_end n' s'
  | _, _ => false
  end.

(** [/^0x[a-fA-F0-9]{40}$/.test(s)] *)
Definition address_regex_test (s : string) : bool :=
  match s with
  | String "0"%char (String "x"%char rest) => hex_digits_to_end 40 rest
  | _ => false
  end.

Definition isValidContractAddress (addr : string) : bool :=
  if String.eqb addr "" then false                    (* [!address] *)
  else if includes addr "YOUR_CONTRACT" || includes addr "0xYOUR" ||
          String.eqb addr ""
  then false
  else address_regex_test addr.

(** ** Closed forms and relations used in the proofs *)

(** The state a successful [uploadDataset] leaves, in closed form. *)
Definition uploaded (sender : address) (now : N) (cid an : string)
    (pub priv paid : bool) (price : N) (st : State) : State :=
  let id := datasetCount st in
  set_status NOT_ENTERED
    ((if pub && negb priv then log (PublicDatasetListed id sender) else λ s, s)
       (log (DatasetUploaded id sender pub paid (Uint.cast 128 price))
          (push_userUploads sender id
             (set_dataset id
                (mkDataset cid an sender pub priv (Uint.cast 48 now) 0 0 paid
                   (Uint.cast 128 price) 0)
                (set_datasetCount (id + 1)
                   (set_cidExists cid true (set_status ENTERED st))))))).

(** The state a successful [purchaseDataset] leaves, from the state [mid]
    in which the external transfer returned. *)
Definition settled (sender : address) (id : N) (token : address)
    (mid : State) : State :=
  let d := dataset mid id in
  let P := priceInFIL d in
  set_status NOT_ENTERED
    (log (DatasetPurchased id sender (uploader d) P token)
       (set_totalPlatformEarnings (totalPlatformEarnings mid + P)
          (set_publisherEarnings (uploader d) (earned mid (uploader d) + P)
             (set_dataset id (with_earnings (earnings d + P) d)
                (set_hasAccess id sender true mid))))).

(** The state a successful [addPaymentToken] leaves. *)
Definition token_added (token : address) (sym : string) (st : State) : State :=
  log (PaymentTokenAdded token sym)
    (set_acceptedTokenByIndex (acceptedTokenCount st) token
       (set_acceptedTokenCount (acceptedTokenCount st + 1)
          (set_paymentToken token (mkPaymentToken token true sym) st))).

(** States with the same token registry. *)
Definition same_tokens (s s' : State) : Prop :=
  paymentTokens s' = paymentTokens s ∧
  acceptedTokenByIndex s' = acceptedTokenByIndex s ∧
  acceptedTokenCount s' = acceptedTokenCount s ∧
  omap added_token (events s') = omap added_token (events s).

(** States whose registry differs at most in mutable record fields. *)
Definition same_registry (s s' : State) : Prop :=
  datasetCount s' = datasetCount s ∧ cidExists s' = cidExists s ∧
  userUploads s' = userUploads s ∧
  omap uploaded_id (events s') = omap uploaded_id (events s) ∧
  omap listed_id (events s') = omap listed_id (events s) ∧
  ∀ j, listing (dataset s' j) = listing (dataset s j).

Definition same_settlement (s s' : State) : Prop :=
  hasAccess s' = hasAccess s ∧
  totalPlatformEarnings s' = totalPlatformEarnings s ∧
  datasetCount s' = datasetCount s ∧
  omap purchase_amount (events s') = omap purchase_amount (events s) ∧
  (∀ id a p amt tok, DatasetPurchased id a p amt tok ∈ events s' ↔
                     DatasetPurchased id a p amt tok ∈ events s) ∧
  ∀ j, uploader (dataset s' j) = uploader (dataset s j) ∧
       earnings (dataset s' j) = earnings (dataset s j).

(** A call keeps the ledger invariants and, with them, the settlement ones. *)
Definition settles (s s' : State) : Prop :=
  preserves s s' ∧ (inv s → settlement_ok s → settlement_ok s').

(** The ids of [l] for which [sender] holds a grant and is not the uploader. *)
Definition purchased_by (st : State) (sender : address) (l : list N) : list N :=
  filter (λ i, has_access st i sender = true ∧ uploader (dataset st i) ≠ sender) l.

(** Counters and earnings of assigned records only grow. *)
Definition grows (s s' : State) : Prop :=
  datasetCount s <= datasetCount s' ∧
  ∀ id, id < datasetCount s →
    views (dataset s id) <= views (dataset s' id) ∧
    downloads (dataset s id) <= downloads (dataset s' id) ∧
    earnings (dataset s id) <= earnings (dataset s' id).

(** The guard in front of each counter. *)
Definition may_bump (k : Counter) (st : State) (sender : address) (id : N) : bool :=
  match k with
  | Views => (uploader (dataset st id) =? sender) || qualifies (dataset st id)
  | Downloads =>
      (uploader (dataset st id) =? sender) || negb (isPaid (dataset st id)) ||
      has_access st id sender
  end.

(** The record after the counter [k] is raised by one. *)
Definition bump (k : Counter) (d : Dataset) : Dataset :=
  match k with
  | Views => with_views (views d + 1) d
  | Downloads => with_downloads (downloads d + 1) d
  end.

(** A ledger with one private dataset, uploaded by 2. *)
Definition demo_private : State :=
  transact (initial 1) (CallUploadDataset 2 5 "P" "" false true false 0).

(** The first check of [purchaseDataset] that fails, in source order. *)
Definition purchase_refusal (st : State) (sender : address) (id : N)
    (token : address) : option Error :=
  let d := dataset st id in
  if negb (qualifies d) then Some Not_public
  else if negb (isPaid d) then Some Free
  else if has_access st id sender then Some Already
  else if uploader d =? sender then Some Own
  else if negb (isTokenAccepted st token) then Some Token
  else None.

(** The character [c] occurs in [s]. *)
Fixpoint occurs (c : ascii) (s : string) : Prop :=
  match s with
  | EmptyString => False
  | String a s' => a = c ∨ occurs c s'
  end.

(** ** Proof automation *)

Ltac mrun :=
  cbv [mbind M_bind mret M_ret gets modify require revert emit checked_add
       nonReentrant onlyOwner canView canDownload answer_of token_call] in *.

(** Reduce record projections applied to the setters, and nothing else. *)
Ltac proj :=
  cbn [cidExists datasets userUploads hasAccess publisherEarnings
       totalPlatformEarnings paymentTokens acceptedTokenByIndex
       acceptedTokenCount datasetCount owner status events
       set_cidExists set_dataset push_userUploads set_hasAccess
       set_publisherEarnings set_totalPlatformEarnings set_paymentToken
       set_acceptedTokenByIndex set_acceptedTokenCount set_datasetCount
       set_status log] in *.

Ltac reads :=
  unfold dataset, has_access, earned, payment_token, cid_used, uploads_of in *;
  proj.

(** * Properties *)

Lemma length_zero_empty (s : string) :
  (0 <? N.of_nat (String.length s)) = false → s = "".
Proof. destruct s; [done|]. simpl. intros H. apply N.ltb_ge in H. lia. Qed.

(** ** Upload *)

(** C4. An upload that violates a precondition (empty or used CID, public
    together with private, private together with paid, paid with a price
    that is not positive) reverts; from a top-level state the revert reason
    is the one of a violated precondition; at the point of the revert the
    dataset count, the used-CID map, the records, the per-uploader index
    and the log are as before the call, and the transaction leaves the
    state unchanged. *)
Theorem upload_violation_reverts st sender now cid an pub priv paid price :
  upload_violation st cid pub priv paid price →
  ∃ e dirty,
    uploadDataset sender now cid an pub priv paid price st = Revert e dirty ∧
    (status st = NOT_ENTERED →
       upload_error_matches e st cid pub priv paid price) ∧
    datasetCount dirty = datasetCount st ∧
    cidExists dirty = cidExists st ∧
    datasets dirty = datasets st ∧
    userUploads dirty = userUploads st ∧
    events dirty = events st ∧
    transact st (CallUploadDataset sender now cid an pub priv paid price) = st.
Proof.
  intros V.
  assert (∀ e dirty,
    uploadDataset sender now cid an pub priv paid price st = Revert e dirty →
    transact st (CallUploadDataset sender now cid an pub priv paid price) = st)
    as Hroll.
  { intros e dirty H. unfold transact. simpl. by rewrite H. }
  revert Hroll. unfold uploadDataset. mrun. intros Hroll.
  destruct (status st) eqn:Hs; [|eexists _, _; split_and!; eauto; done].
  change (cid_used (set_status ENTERED st) cid) with (cid_used st cid) in *.
  destruct (cid_used st cid) eqn:Hu; simpl in *;
    [eexists _, _; split_and!; eauto; done|].
  destruct (0 <? N.of_nat (String.length cid)) eqn:Hl;
    [|apply length_zero_empty in Hl; eexists _, _; split_and!; eauto; done].
  destruct pub, priv; simpl in *;
    try (eexists _, _; split_and!; eauto; done).
  all: destruct paid; simpl in *; try (eexists _, _; split_and!; eauto; done).
  all: try (destruct (0 <? price) eqn:Hp;
         [apply N.ltb_lt in Hp
         |apply N.ltb_ge in Hp; eexists _, _; split_and!; eauto; done]).
  all: exfalso; destruct V as [->|[V|[[??]|[[??]|[??]]]]];
    try done; try congruence; lia.
Qed.

(** ** What a successful call has checked and written *)

Section MonadInversion.
Context {A B : Type}.

Lemma bind_Ok (m : M A) (f : A → M B) st b st' :
  (m ≫= f) st = Ok b st' → ∃ a s, m st = Ok a s ∧ f a s = Ok b st'.
Proof.
  unfold mbind, M_bind. destruct (m st) as [a s|]; [|done]. by exists a, s.
Qed.

Lemma bind_Revert (m : M A) (f : A → M B) st e st' :
  (m ≫= f) st = Revert e st' →
  m st = Revert e st' ∨ ∃ a s, m st = Ok a s ∧ f a s = Revert e st'.
Proof.
  unfold mbind, M_bind. destruct (m st) as [a s|e0 s] eqn:Hm; intros H.
  - right. by exists a, s.
  - simplify_eq. by left.
Qed.

Lemma mret_Ok (a a' : A) st st' :
  @mret M _ A a st = Ok a' st' → a' = a ∧ st' = st.
Proof. unfold mret, M_ret. by intros [= -> ->]. Qed.

Lemma gets_Ok (f : State → A) st a st' :
  gets f st = Ok a st' → a = f st ∧ st' = st.
Proof. unfold gets. by intros [= <- <-]. Qed.
End MonadInversion.

Lemma require_Ok b e st u st' : require b e st = Ok u st' → b = true ∧ st' = st.
Proof. destruct b; unfold require, mret, M_ret, revert; [|done]. by intros [= _ ->]. Qed.

Lemma modify_Ok f st u st' : modify f st = Ok u st' → st' = f st.
Proof. unfold modify. by intros [= _ <-]. Qed.

Lemma checked_add_Ok w a b st r st' :
  checked_add w a b st = Ok r st' → a + b <= Uint.max w ∧ r = a + b ∧ st' = st.
Proof.
  unfold checked_add, mret, M_ret, revert.
  destruct (a + b <=? Uint.max w) eqn:Hc; [|done].
  apply N.leb_le in Hc. by intros [= <- <-].
Qed.

(** Take a successful monadic run apart, statement by statement. *)
Ltac inv_Ok :=
  repeat match goal with
  | H : (_ ≫= _) _ = Ok _ _ |- _ =>
      let a := fresh "a" in let s := fresh "s" in let H' := fresh "Hrun" in
      apply bind_Ok in H as (a & s & H' & H)
  | H : @mret M _ _ _ _ = Ok _ _ |- _ => apply mret_Ok in H as [? ?]; subst
  | H : gets _ _ = Ok _ _ |- _ => apply gets_Ok in H as [? ?]; subst
  | H : require _ _ _ = Ok _ _ |- _ => apply require_Ok in H as [? ?]; subst
  | H : modify _ _ = Ok _ _ |- _ => apply modify_Ok in H; subst
  | H : emit _ _ = Ok _ _ |- _ => apply modify_Ok in H; subst
  | H : checked_add _ _ _ _ = Ok _ _ |- _ =>
      apply checked_add_Ok in H as (? & ? & ?); subst
  | H : (if ?b then _ else _) _ = Ok _ _ |- _ => destruct b eqn:?
  end.

Lemma dataset_set_dataset_eq id d st : dataset (set_dataset id d st) id = d.
Proof. reads. by rewrite lookup_insert_eq. Qed.

Lemma dataset_set_dataset_ne id j d st :
  id ≠ j → dataset (set_dataset id d st) j = dataset st j.
Proof. intros Hne. reads. by rewrite lookup_insert_ne. Qed.

Lemma uploadDataset_Ok sender now cid an pub priv paid price st st' :
  uploadDataset sender now cid an pub priv paid price st = Ok tt st' →
  status st = NOT_ENTERED ∧ cid_used st cid = false ∧ cid ≠ "" ∧
  datasetCount st + 1 <= Uint.max 256 ∧
  datasetCount st' = datasetCount st + 1 ∧
  datasets st' =
    <[datasetCount st :=
        mkDataset cid an sender pub priv (Uint.cast 48 now) 0 0 paid
          (Uint.cast 128 price) 0]> (datasets st) ∧
  cidExists st' = <[cid := true]> (cidExists st) ∧
  userUploads st' =
    <[sender := uploads_of st sender ++ [datasetCount st]]> (userUploads st) ∧
  hasAccess st' = hasAccess st ∧
  publisherEarnings st' = publisherEarnings st ∧
  totalPlatformEarnings st' = totalPlatformEarnings st ∧
  paymentTokens st' = paymentTokens st ∧
  status st' = NOT_ENTERED.
Proof.
  unfold uploadDataset, nonReentrant. intros H. inv_Ok.
  all: reads.
  all: destruct (status st); [|done].
  all: repeat match goal with
         | H : negb _ = true |- _ => apply negb_true_iff in H
         end.
  all: assert (cid ≠ "") by (intros ->; done).
  all: by split_and!.
Qed.

Lemma addPaymentToken_Ok sender token sym st st' :
  addPaymentToken sender token sym st = Ok tt st' →
  datasetCount st' = datasetCount st ∧
  datasets st' = datasets st ∧
  hasAccess st' = hasAccess st ∧
  publisherEarnings st' = publisherEarnings st ∧
  status st' = status st.
Proof.
  unfold addPaymentToken, onlyOwner. intros H. inv_Ok. by reads.
Qed.

Lemma incrementViews_Ok sender id st st' :
  incrementViews sender id st = Ok tt st' →
  (uploader (dataset st id) = sender ∨ qualifies (dataset st id) = true) ∧
  views (dataset st id) + 1 <= Uint.max 48 ∧
  st' = set_dataset id (with_views (views (dataset st id) + 1) (dataset st id)) st.
Proof.
  unfold incrementViews, canView. intros H. inv_Ok. split_and!; try done.
  match goal with Hg : (_ || _) = true |- _ =>
    apply orb_true_iff in Hg as [Hg|Hg]; [left; by apply N.eqb_eq|by right]
  end.
Qed.

Lemma incrementDownloads_Ok sender id st st' :
  incrementDownloads sender id st = Ok tt st' →
  (uploader (dataset st id) = sender ∨ isPaid (dataset st id) = false ∨
   has_access st id sender = true) ∧
  downloads (dataset st id) + 1 <= Uint.max 48 ∧
  st' = set_dataset id
          (with_downloads (downloads (dataset st id) + 1) (dataset st id)) st.
Proof.
  unfold incrementDownloads, canDownload. intros H. inv_Ok.
  split_and!; try done.
  match goal with Hg : (_ || _) = true |- _ =>
    apply orb_true_iff in Hg as [Hg|Hg]; [|by right; right];
    apply orb_true_iff in Hg as [Hg|Hg]; [left; by apply N.eqb_eq|];
    right; left; by apply negb_true_iff
  end.
Qed.

Lemma purchaseDataset_Ok tf sender id token st st' :
  purchaseDataset tf sender id token st = Ok tt st' →
  let d := dataset st id in
  status st = NOT_ENTERED ∧ qualifies d = true ∧ isPaid d = true ∧
  has_access st id sender = false ∧ uploader d ≠ sender ∧
  isTokenAccepted st token = true ∧
  ∃ b mid,
    tf token sender (uploader d) (priceInFIL d) (set_status ENTERED st)
      = Ok b mid ∧
    let dm := dataset mid id in
    earnings dm + priceInFIL dm <= Uint.max 128 ∧
    earned mid (uploader dm) + priceInFIL dm <= Uint.max 128 ∧
    totalPlatformEarnings mid + priceInFIL dm <= Uint.max 128 ∧
    datasets st' =
      <[id := with_earnings (earnings dm + priceInFIL dm) dm]> (datasets mid) ∧
    hasAccess st' = <[(id, sender) := true]> (hasAccess mid) ∧
    publisherEarnings st' =
      <[uploader dm := earned mid (uploader dm) + priceInFIL dm]>
        (publisherEarnings mid) ∧
    totalPlatformEarnings st' = totalPlatformEarnings mid + priceInFIL dm ∧
    datasetCount st' = datasetCount mid ∧
    cidExists st' = cidExists mid ∧
    userUploads st' = userUploads mid ∧
    paymentTokens st' = paymentTokens mid ∧
    status st' = NOT_ENTERED.
Proof.
  unfold purchaseDataset, nonReentrant, isTokenAccepted, qualifies.
  intros H. inv_Ok.
  match goal with Htf : tf _ _ _ _ _ = Ok ?b ?mid |- _ =>
    rename Htf into Hcall; rename mid into m
  end.
  rewrite !dataset_set_dataset_eq in *.
  reads. rewrite ?lookup_insert_eq in *. proj.
  destruct (status st); [|done].
  repeat match goal with
         | H : negb _ = true |- _ => apply negb_true_iff in H
         end.
  match goal with Hown : (_ =? _) = false |- _ => apply N.eqb_neq in Hown end.
  split_and!; try done.
  eexists _, m. split; [exact Hcall|]. by split_and!.
Qed.

(** ** Loop ranges and sums *)

Lemma ids_succ n : ids (n + 1) = ids n ++ [n].
Proof.
  unfold ids. replace (N.to_nat (n + 1)) with (S (N.to_nat n)) by lia.
  rewrite seq_S, fmap_app. simpl. by rewrite N2Nat.id.
Qed.

Lemma elem_of_ids i n : i ∈ ids n ↔ i < n.
Proof.
  unfold ids. rewrite list_elem_of_fmap. split.
  - intros (k & -> & Hk). apply elem_of_seq in Hk. lia.
  - intros Hi. exists (N.to_nat i). split; [by rewrite N2Nat.id|].
    apply elem_of_seq. lia.
Qed.

Lemma NoDup_ids n : NoDup (ids n).
Proof.
  unfold ids. apply NoDup_fmap_2; [|apply NoDup_seq].
  intros a b Hab. lia.
Qed.

Lemma sumN_cons x l : sumN (x :: l) = x + sumN l.
Proof. done. Qed.

Lemma sumN_app l1 l2 : sumN (l1 ++ l2) = sumN l1 + sumN l2.
Proof. induction l1 as [|x l1 IH]; simpl; [done|]. rewrite IH. lia. Qed.

Lemma sumN_ext (f g : N → N) (l : list N) :
  (∀ i, i ∈ l → g i = f i) → sumN (g <$> l) = sumN (f <$> l).
Proof.
  induction l as [|x l IH]; intros Hfg; [done|].
  rewrite !fmap_cons, !sumN_cons. rewrite Hfg by left. rewrite IH; [done|]. intros i Hi. apply Hfg. by right.
Qed.

Lemma sumN_update (f g : N → N) (l : list N) j P :
  NoDup l → j ∈ l → g j = f j + P → (∀ i, i ≠ j → g i = f i) →
  sumN (g <$> l) = sumN (f <$> l) + P.
Proof.
  intros Hnd Hj Hgj Hother. induction l as [|x l IH]; [by inversion Hj|].
  apply NoDup_cons in Hnd as [Hx Hnd]. rewrite !fmap_cons, !sumN_cons.
  destruct (decide (x = j)) as [->|Hne].
  - rewrite Hgj. rewrite (sumN_ext f g l); [lia|].
    intros i Hi. apply Hother. intros ->. done.
  - rewrite Hother by done. rewrite IH; [lia|done|].
    apply elem_of_cons in Hj as [->|Hj]; done.
Qed.

(** ** Every call relates the state before to the state after *)

Section ExecRelation.
Variable R : State → State → Prop.
Hypothesis R_refl : ∀ s, R s s.
Hypothesis R_trans : ∀ a b c, R a b → R b c → R a c.
Hypothesis R_add : ∀ sender token sym st st',
  addPaymentToken sender token sym st = Ok tt st' → R st st'.
Hypothesis R_upload : ∀ sender now cid an pub priv paid price st st',
  uploadDataset sender now cid an pub priv paid price st = Ok tt st' →
  R st st'.
Hypothesis R_views : ∀ sender id st st',
  incrementViews sender id st = Ok tt st' → R st st'.
Hypothesis R_downloads : ∀ sender id st st',
  incrementDownloads sender id st = Ok tt st' → R st st'.
Hypothesis R_purchase : ∀ tf sender id token st st',
  (∀ t f u a s b mid, tf t f u a s = Ok b mid → R s mid) →
  purchaseDataset tf sender id token st = Ok tt st' → R st st'.

Lemma reentry_R (l : list Call) :
  Forall (λ c, ∀ st st', exec c st = Ok tt st' → R st st') l →
  ∀ s, R s (fold_left (λ s c, commit s (exec c s)) l s).
Proof.
  induction 1 as [|c l Hc _ IH]; intros s; simpl; [done|].
  eapply R_trans; [|apply IH].
  destruct (exec c s) as [[] s'|] eqn:He; simpl; [by eapply Hc|done].
Qed.

Lemma exec_R c : ∀ st st', exec c st = Ok tt st' → R st st'.
Proof.
  induction c as [| | | |sender id token reentry answer IH]
    using Call_nested_ind; intros st st' H; simpl in H; eauto.
  eapply R_purchase; [|exact H].
  intros t f u a s b mid Htok. cbv beta in Htok.
  unfold token_call in Htok. inv_Ok.
  destruct answer; simpl in *; inv_Ok; try done; by apply reentry_R.
Qed.

Lemma transact_R st c : R st (transact st c).
Proof.
  unfold transact. destruct (exec c st) as [[] st'|] eqn:He; simpl;
    [by eapply exec_R|done].
Qed.
End ExecRelation.

(** ** The invariants hold in every reachable state *)

Lemma blank_fields d :
  blank d →
  uploader d = zero_address ∧ isPublic d = false ∧ isPrivate d = false ∧
  isPaid d = false ∧ priceInFIL d = 0 ∧ earnings d = 0.
Proof. destruct d. unfold blank. simpl. intros [=]. by subst. Qed.

Lemma blank_with_views v d : blank d → blank (with_views v d).
Proof. by destruct d. Qed.

Lemma blank_with_downloads v d : blank d → blank (with_downloads v d).
Proof. by destruct d. Qed.

Lemma assigned_of_public st id :
  inv st → isPublic (dataset st id) = true → id < datasetCount st.
Proof.
  intros Hinv Hpub.
  destruct (N.lt_ge_cases id (datasetCount st)) as [|Hge]; [done|].
  apply (inv_unassigned _ Hinv), blank_fields in Hge as (_ & Hge & _).
  congruence.
Qed.

Lemma inv_initial deployer : inv (initial deployer).
Proof.
  split.
  - intros id _. unfold dataset. simpl. by rewrite lookup_empty.
  - intros id a. unfold has_access. simpl. by rewrite lookup_empty.
  - intros u. unfold earned, owned_earnings. simpl. by rewrite lookup_empty.
Qed.

Lemma evolves_refl st : evolves st st.
Proof. by split. Qed.

Lemma evolves_trans a b c : evolves a b → evolves b c → evolves a c.
Proof.
  intros [C1 L1 A1] [C2 L2 A2]. split.
  - lia.
  - intros id Hid. rewrite L2 by lia. by apply L1.
  - eauto.
Qed.

Lemma preserves_refl st : preserves st st.
Proof. intros Hinv. split_and!; [done|apply evolves_refl|done]. Qed.

Lemma preserves_trans a b c : preserves a b → preserves b c → preserves a c.
Proof.
  intros Hab Hbc Ha. destruct (Hab Ha) as (Hb & Eab & Sab).
  destruct (Hbc Hb) as (Hc & Ebc & Sbc). split_and!; [done| |congruence].
  by eapply evolves_trans.
Qed.

(** A state that differs from [st] in no dataset, grant, earnings entry or
    count inherits the invariant. *)
Lemma inv_same_ledger st st' :
  datasetCount st' = datasetCount st → datasets st' = datasets st →
  hasAccess st' = hasAccess st → publisherEarnings st' = publisherEarnings st →
  inv st → inv st'.
Proof.
  intros Hc Hd Ha He [I1 I2 I3]. split.
  - intros id. unfold dataset. rewrite Hc, Hd. apply I1.
  - intros id a. unfold has_access, dataset. rewrite Ha, Hd. apply I2.
  - intros u. unfold earned, owned_earnings, dataset. rewrite He, Hc, Hd.
    apply I3.
Qed.

Lemma evolves_same_ledger st st' :
  datasetCount st' = datasetCount st → datasets st' = datasets st →
  hasAccess st' = hasAccess st → evolves st st'.
Proof.
  intros Hc Hd Ha. split.
  - lia.
  - intros id _. unfold dataset. by rewrite Hd.
  - intros id a. unfold has_access. by rewrite Ha.
Qed.

Lemma preserves_add sender token sym st st' :
  addPaymentToken sender token sym st = Ok tt st' → preserves st st'.
Proof.
  intros H Hinv. apply addPaymentToken_Ok in H as (Hc & Hd & Ha & He & Hs).
  split_and!; [by eapply inv_same_ledger|by apply evolves_same_ledger|done].
Qed.

(** Rewriting one record without touching its listing fields or earnings. *)
Lemma preserves_counter_write id d' st :
  listing d' = listing (dataset st id) →
  earnings d' = earnings (dataset st id) →
  preserves st (set_dataset id d' st).
Proof.
  intros Hl He [I1 I2 I3].
  assert (∀ j, listing (dataset (set_dataset id d' st) j) = listing (dataset st j)
             ∧ earnings (dataset (set_dataset id d' st) j) = earnings (dataset st j))
    as Hsame.
  { intros j. destruct (decide (id = j)) as [<-|Hne].
    - by rewrite dataset_set_dataset_eq.
    - by rewrite dataset_set_dataset_ne. }
  assert (∀ j, uploader (dataset (set_dataset id d' st) j) = uploader (dataset st j)
             ∧ qualifies (dataset (set_dataset id d' st) j) = qualifies (dataset st j)
             ∧ isPaid (dataset (set_dataset id d' st) j) = isPaid (dataset st j))
    as Hfields.
  { intros j. destruct (Hsame j) as [Hj _]. unfold listing, qualifies in *.
    injection Hj as ????????. split_and!; congruence. }
  split_and!; [split| split|done].
  - intros j Hj. specialize (I1 j Hj). destruct (Hsame j) as [Hlj Hej].
    unfold blank, listing in *.
    destruct (dataset (set_dataset id d' st) j), (dataset st j).
    simpl in *. by simplify_eq.
  - intros j a Ha. destruct (Hfields j) as (_ & -> & ->). exact (I2 j a Ha).
  - intros u. unfold earned, owned_earnings in *. proj. rewrite I3.
    symmetry. apply sumN_ext. intros i _.
    destruct (Hfields i) as (-> & _). by destruct (Hsame i) as [_ ->].
  - done.
  - intros j _. apply Hsame.
  - done.
Qed.

Lemma preserves_views sender id st st' :
  incrementViews sender id st = Ok tt st' → preserves st st'.
Proof.
  intros H. apply incrementViews_Ok in H as (_ & _ & ->).
  by apply preserves_counter_write.
Qed.

Lemma preserves_downloads sender id st st' :
  incrementDownloads sender id st = Ok tt st' → preserves st st'.
Proof.
  intros H. apply incrementDownloads_Ok in H as (_ & _ & ->).
  by apply preserves_counter_write.
Qed.

Lemma dataset_insert st st' id d j :
  datasets st' = <[id := d]> (datasets st) →
  dataset st' j = if decide (j = id) then d else dataset st j.
Proof.
  intros H. unfold dataset. rewrite H. case_decide as Hj.
  - subst. by rewrite lookup_insert_eq.
  - by rewrite lookup_insert_ne.
Qed.

Lemma has_access_insert st st' id a j b :
  hasAccess st' = <[(id, a) := true]> (hasAccess st) →
  has_access st' j b =
    if decide ((j, b) = (id, a)) then true else has_access st j b.
Proof.
  intros H. unfold has_access. rewrite H. case_decide as Hj.
  - rewrite Hj. by rewrite lookup_insert_eq.
  - by rewrite lookup_insert_ne.
Qed.

Lemma earned_insert st st' u v w :
  publisherEarnings st' = <[u := v]> (publisherEarnings st) →
  earned st' w = if decide (w = u) then v else earned st w.
Proof.
  intros H. unfold earned. rewrite H. case_decide as Hj.
  - subst. by rewrite lookup_insert_eq.
  - by rewrite lookup_insert_ne.
Qed.

Lemma preserves_upload sender now cid an pub priv paid price st st' :
  uploadDataset sender now cid an pub priv paid price st = Ok tt st' →
  preserves st st'.
Proof.
  intros H Hinv. destruct (Hinv) as [I1 I2 I3].
  apply uploadDataset_Ok in H
    as (Hs & _ & _ & _ & Hc & Hd & _ & _ & Ha & He & _ & _ & Hs').
  pose proof (λ j, dataset_insert st st' _ _ j Hd) as Hget.
  assert (∀ j a, has_access st' j a = has_access st j a) as Hacc
    by (intros; unfold has_access; by rewrite Ha).
  split_and!; [split|split|congruence].
  - intros j Hj. rewrite Hget. case_decide; [lia|]. apply I1. lia.
  - intros j a Hja. rewrite Hacc in Hja. rewrite Hget.
    case_decide as Hjc; [|by apply (I2 j a)]. subst j.
    apply I2 in Hja as [Hq _]. unfold qualifies in Hq.
    apply andb_true_iff in Hq as [Hq _].
    apply assigned_of_public in Hq; [lia|done].
  - intros u. unfold earned. rewrite He. fold (earned st u). rewrite I3.
    unfold owned_earnings. rewrite Hc, ids_succ, fmap_app, sumN_app.
    rewrite (sumN_ext
      (λ i, if uploader (dataset st i) =? u then earnings (dataset st i) else 0)
      (λ i, if uploader (dataset st' i) =? u then earnings (dataset st' i) else 0)).
    + simpl. rewrite Hget. case_decide; [|done]. simpl.
      destruct (sender =? u); lia.
    + intros i Hi. apply elem_of_ids in Hi. rewrite Hget.
      case_decide; [lia|done].
  - lia.
  - intros j Hj. rewrite Hget. case_decide; [lia|done].
  - intros j a. by rewrite Hacc.
Qed.

Lemma preserves_purchase tf sender id token st st' :
  (∀ t f u a s b mid, tf t f u a s = Ok b mid → preserves s mid) →
  purchaseDataset tf sender id token st = Ok tt st' → preserves st st'.
Proof.
  intros Htf H Hinv.
  apply purchaseDataset_Ok in H
    as (Hs & Hq & Hpaid & _ & _ & _ & b & mid & Hcall & _ & _ & _ &
        Hd & Ha & He & _ & Hc & _ & _ & _ & Hs').
  apply Htf in Hcall. destruct Hcall as (Hm & Em & _).
  { eapply inv_same_ledger; [..|exact Hinv]; done. }
  assert (id < datasetCount st) as Hid.
  { apply assigned_of_public; [done|].
    unfold qualifies in Hq. by apply andb_true_iff in Hq as [? _]. }
  pose proof (ev_listing _ _ Em id Hid) as Hl.
  change (dataset (set_status ENTERED st) id) with (dataset st id) in Hl.
  pose proof (ev_count _ _ Em) as Hcm.
  change (datasetCount (set_status ENTERED st)) with (datasetCount st) in Hcm.
  set (dm := dataset mid id) in *.
  set (P := priceInFIL dm) in *.
  pose proof (λ j, dataset_insert mid st' _ _ j Hd) as Hget.
  pose proof (λ j b, has_access_insert mid st' _ _ j b Ha) as Hacc.
  pose proof (λ w, earned_insert mid st' _ _ w He) as Hearn.
  assert (qualifies dm = true ∧ isPaid dm = true) as [Hqm Hpm].
  { unfold listing, qualifies in *. injection Hl as ????????.
    split; congruence. }
  destruct Hm as [I1 I2 I3].
  assert (inv st' ∧ evolves mid st') as [Hinv' Ev].
  { split; split.
    - intros j Hj. rewrite Hget. case_decide; [lia|]. apply I1. lia.
    - intros j a Hja. rewrite Hget.
      destruct (decide (j = id)) as [->|Hjid]; [done|].
      rewrite Hacc in Hja. rewrite decide_False in Hja by congruence.
      by apply (I2 j a).
    - intros u. rewrite Hearn. unfold owned_earnings. rewrite Hc.
      case_decide as Hu.
      + subst u. rewrite I3. unfold owned_earnings. symmetry.
        apply (sumN_update _ _ _ id); [apply NoDup_ids|apply elem_of_ids; lia|..].
        * rewrite Hget. rewrite decide_True by done. simpl.
          fold dm. rewrite N.eqb_refl. done.
        * intros i Hi. rewrite Hget. by rewrite decide_False.
      + rewrite I3. unfold owned_earnings. symmetry. apply sumN_ext.
        intros i _. rewrite Hget. case_decide as Hi; [|done]. subst i.
        simpl. fold dm. destruct (uploader dm =? u) eqn:Hup; [|done].
        apply N.eqb_eq in Hup. congruence.
    - lia.
    - intros j Hj. rewrite Hget. case_decide; [by subst|done].
    - intros j a Hja. rewrite Hacc. by case_decide. }
  split_and!; [done| |congruence].
  eapply evolves_trans; [|exact Ev].
  destruct Em as [E1 E2 E3]. by split.
Qed.

Lemma exec_preserves c st st' : exec c st = Ok tt st' → preserves st st'.
Proof.
  apply exec_R.
  - apply preserves_refl.
  - apply preserves_trans.
  - apply preserves_add.
  - apply preserves_upload.
  - apply preserves_views.
  - apply preserves_downloads.
  - apply preserves_purchase.
Qed.

Lemma transact_preserves st c : preserves st (transact st c).
Proof.
  apply transact_R.
  - apply preserves_refl.
  - apply preserves_trans.
  - apply preserves_add.
  - apply preserves_upload.
  - apply preserves_views.
  - apply preserves_downloads.
  - apply preserves_purchase.
Qed.

Lemma reachable_inv st : reachable st → inv st ∧ status st = NOT_ENTERED.
Proof.
  induction 1 as [deployer|st c _ [IH Hs]].
  - split; [apply inv_initial|done].
  - destruct (transact_preserves st c IH) as (Hinv & _ & Hs').
    split; [done|congruence].
Qed.

Lemma reachable_demo_listed : reachable demo_listed.
Proof. unfold demo_listed. repeat apply reach_call. apply reach_deploy. Qed.

Lemma reachable_demo_sold : reachable demo_sold.
Proof. unfold demo_sold. apply reach_call, reachable_demo_listed. Qed.

Example demo_sold_ledger :
  datasetCount demo_sold = 1 ∧ earnings (dataset demo_sold 0) = 10 ∧
  earned demo_sold 2 = 10 ∧ has_access demo_sold 0 3 = true.
Proof. by vm_compute. Qed.

(** ** Settlement *)

(** C1 (the code diverges). The token answers [false] to [transferFrom]
    instead of reverting; [purchaseDataset] drops the answer, returns
    normally and has written the grant, the dataset earnings and the
    publisher earnings. *)
Theorem purchase_settles_on_failed_transfer :
  let c := CallPurchaseDataset 3 0 100 [] TransferFalse in
  succeeded (exec c demo_listed) = true ∧
  has_access demo_listed 0 3 = false ∧
  has_access (transact demo_listed c) 0 3 = true ∧
  earnings (dataset (transact demo_listed c) 0) = 10 ∧
  earned (transact demo_listed c) 2 = 10.
Proof. by vm_compute. Qed.

Lemma nested_set_dataset id d' s :
  listing d' = listing (dataset s id) → earnings d' = earnings (dataset s id) →
  nested s (set_dataset id d' s).
Proof.
  intros Hl He Hs. split_and!; try done. intros j.
  destruct (decide (id = j)) as [<-|Hne].
  - by rewrite dataset_set_dataset_eq.
  - by rewrite dataset_set_dataset_ne.
Qed.

Lemma exec_nested c st st' : exec c st = Ok tt st' → nested st st'.
Proof.
  apply exec_R; clear.
  - by intros s Hs.
  - intros a b c Hab Hbc Ha. destruct (Hab Ha) as (Hb & A1 & P1 & C1 & D1).
    destruct (Hbc Hb) as (Hc & A2 & P2 & C2 & D2).
    split_and!; try congruence. intros j.
    destruct (D1 j), (D2 j). split; congruence.
  - intros sender token sym st st' H Hs.
    apply addPaymentToken_Ok in H as (Hc & Hd & Ha & He & Hst).
    split_and!; try congruence. intros j. unfold dataset. by rewrite Hd.
  - intros sender now cid an pub priv paid price st st' H Hs.
    apply uploadDataset_Ok in H as (Hs' & _). congruence.
  - intros sender id st st' H. apply incrementViews_Ok in H as (_ & _ & ->).
    by apply nested_set_dataset.
  - intros sender id st st' H. apply incrementDownloads_Ok in H as (_ & _ & ->).
    by apply nested_set_dataset.
  - intros tf sender id token st st' _ H Hs.
    apply purchaseDataset_Ok in H as (Hs' & _). congruence.
Qed.

Lemma reentry_nested reentry s :
  nested s (fold_left (λ s c, commit s (exec c s)) reentry s).
Proof.
  revert s. induction reentry as [|c l IH]; intros s; simpl; [by intros ?|].
  intros Hs.
  assert (nested s (commit s (exec c s))) as Hc.
  { destruct (exec c s) as [[] s'|] eqn:He; simpl;
      [by eapply exec_nested|by intros ?]. }
  destruct (Hc Hs) as (Hs1 & A1 & P1 & C1 & D1).
  destruct (IH _ Hs1) as (Hs2 & A2 & P2 & C2 & D2).
  split_and!; try congruence. intros j.
  destruct (D1 j), (D2 j). split; congruence.
Qed.

(** What a successful purchase guarantees, for every token behaviour. At
    price [P] it raises the dataset's earnings by exactly [P], raises the
    earnings of its uploader by exactly [P] and sets the buyer's grant;
    every other grant and every other publisher's earnings are as before;
    the purchase writes no other record: each one is as the token's nested
    calls left it, which is as before the call when the token makes none,
    and in every case keeps its listing fields and its earnings. *)
Theorem purchase_effects st buyer id token reentry answer st' :
  exec (CallPurchaseDataset buyer id token reentry answer) st = Ok tt st' →
  let d := dataset st id in
  let P := priceInFIL d in
  let mid :=
    fold_left (λ s c, commit s (exec c s)) reentry (set_status ENTERED st) in
  earnings (dataset st' id) = earnings d + P ∧
  earned st' (uploader d) = earned st (uploader d) + P ∧
  has_access st' id buyer = true ∧
  listing (dataset st' id) = listing d ∧
  (∀ j a, (j, a) ≠ (id, buyer) → has_access st' j a = has_access st j a) ∧
  (∀ u, u ≠ uploader d → earned st' u = earned st u) ∧
  (∀ j, j ≠ id → dataset st' j = dataset mid j) ∧
  (reentry = [] → ∀ j, j ≠ id → dataset st' j = dataset st j) ∧
  (∀ j, j ≠ id → listing (dataset st' j) = listing (dataset st j) ∧
                 earnings (dataset st' j) = earnings (dataset st j)).
Proof.
  intros H d P mid. simpl in H.
  apply purchaseDataset_Ok in H
    as (Hs & _ & _ & _ & _ & _ & b & m & Hcall & _ & _ & _ &
        Hd & Ha & He & _ & _ & _ & _ & _ & _).
  assert (m = mid) as ->.
  { unfold token_call in Hcall. inv_Ok.
    destruct answer; simpl in *; inv_Ok; done. }
  clear Hcall.
  destruct (reentry_nested reentry (set_status ENTERED st) eq_refl)
    as (_ & Hacc & Hpe & _ & Hrec).
  fold mid in Hacc, Hpe, Hrec.
  pose proof (λ j, dataset_insert mid st' _ _ j Hd) as Hget.
  pose proof (λ j a, has_access_insert mid st' _ _ j a Ha) as Hgrant.
  pose proof (λ w, earned_insert mid st' _ _ w He) as Hearn.
  assert (∀ j, listing (dataset mid j) = listing (dataset st j) ∧
               earnings (dataset mid j) = earnings (dataset st j)) as Hrec'
    by exact Hrec.
  assert (uploader (dataset mid id) = uploader d ∧
          priceInFIL (dataset mid id) = P ∧
          earnings (dataset mid id) = earnings d) as (Hu & Hp & Hearnings).
  { destruct (Hrec' id) as [Hl ?]. unfold listing in Hl.
    injection Hl as ????????. by split_and!. }
  assert (∀ w, earned mid w = earned st w) as Hsame
    by (intros w; unfold earned; by rewrite Hpe).
  split_and!.
  - rewrite Hget, decide_True by done. simpl. by rewrite Hp, Hearnings.
  - rewrite Hearn, Hu, decide_True by done. by rewrite Hp, Hsame.
  - by rewrite Hgrant, decide_True.
  - rewrite Hget, decide_True by done.
    destruct (Hrec' id) as [Hl _]. unfold d. rewrite <- Hl.
    by destruct (dataset mid id).
  - intros j a Hne. rewrite Hgrant, decide_False by done.
    unfold has_access. by rewrite Hacc.
  - intros u Hne. rewrite Hearn, Hu, decide_False by done. apply Hsame.
  - intros j Hne. by rewrite Hget, decide_False.
  - intros -> j Hne. by rewrite Hget, decide_False.
  - intros j Hne. rewrite Hget, decide_False by done. apply Hrec'.
Qed.

(** ** The re-entrancy guard *)

Lemma nonReentrant_entered body st :
  status st = ENTERED → nonReentrant body st = Revert ReentrantCall st.
Proof. intros Hs. unfold nonReentrant. mrun. by rewrite Hs. Qed.

Lemma exec_guarded c st :
  is_nonReentrant c = true → status st = ENTERED →
  exec c st = Revert ReentrantCall st.
Proof.
  intros Hc Hs. destruct c; try done; simpl.
  - unfold uploadDataset. by apply nonReentrant_entered.
  - unfold purchaseDataset. by apply nonReentrant_entered.
Qed.

Lemma purchaseDataset_ext tf1 tf2 sender id token st :
  (∀ t f u a s, status s = ENTERED → tf1 t f u a s = tf2 t f u a s) →
  purchaseDataset tf1 sender id token st = purchaseDataset tf2 sender id token st.
Proof.
  intros Htf. unfold purchaseDataset. mrun.
  destruct (status st); [|done].
  repeat (match goal with
          | |- context [if ?b then _ else _] => destruct b
          end; cbv beta iota; try done).
  by rewrite Htf.
Qed.

Lemma reentry_filter l s :
  status s = ENTERED →
  fold_left (λ s c, commit s (exec c s)) l s =
  fold_left (λ s c, commit s (exec c s))
    (filter (λ c, is_nonReentrant c = false) l) s.
Proof.
  revert s. induction l as [|c l IH]; intros s Hs; [done|].
  destruct (is_nonReentrant c) eqn:Hc.
  - rewrite filter_cons_False by (by rewrite Hc). simpl.
    rewrite exec_guarded by done. simpl. by apply IH.
  - rewrite filter_cons_True by done. simpl. apply IH.
    destruct (exec c s) as [[] s'|] eqn:He; simpl; [|done].
    by apply (exec_nested c s s' He).
Qed.

(** Where the guard is. The guard is the [nonReentrant] modifier, and
    it is on [uploadDataset] and [purchaseDataset]: while the flag is held
    a call to either reverts with the guard's error and writes nothing,
    and the flag is held during the external transfer of a purchase, so
    the nested uploads and purchases a token attempts have no effect at
    all. *)
Theorem guard_covers_upload_and_purchase :
  (∀ c st, is_nonReentrant c = true → status st = ENTERED →
     exec c st = Revert ReentrantCall st) ∧
  (∀ sender id token reentry answer st,
     exec (CallPurchaseDataset sender id token reentry answer) st =
     exec (CallPurchaseDataset sender id token
             (filter (λ c, is_nonReentrant c = false) reentry) answer) st).
Proof.
  split; [apply exec_guarded|].
  intros sender id token reentry answer st. simpl.
  apply purchaseDataset_ext. intros _ _ _ _ s Hs.
  unfold token_call. mrun. by rewrite <- reentry_filter.
Qed.

Lemma guard_covers_upload_and_purchase_witness :
  exec (CallUploadDataset 2 1000 "B" "" true false false 0)
    (set_status ENTERED demo_listed)
  = Revert ReentrantCall (set_status ENTERED demo_listed).
Proof.
  apply (proj1 guard_covers_upload_and_purchase); reflexivity.
Defined.

(** Not every mutator is refused while the flag is held:
    [incrementViews] carries no guard, so a call to it made from inside a
    purchase is accepted. *)
Lemma increments_not_guarded : ¬ all_mutators_guarded.
Proof.
  intros H.
  specialize (H (CallIncrementViews 2 0) eq_refl
                (set_status ENTERED demo_listed) eq_refl).
  by vm_compute in H.
Qed.

Example nested_increment_takes_effect :
  views (dataset demo_listed 0) = 0 ∧
  views (dataset
    (transact demo_listed
       (CallPurchaseDataset 3 0 100 [CallIncrementViews 100 0] TransferTrue))
    0) = 1.
Proof. by vm_compute. Qed.

Lemma reachable_demo_two : reachable demo_two.
Proof. unfold demo_two. apply reach_call, reachable_demo_listed. Qed.

(** C2 (the code diverges). While a purchase is in flight and the guard
    flag is held, [incrementViews] and [incrementDownloads] called by the
    token are accepted, where [uploadDataset], which carries the guard, is
    refused with the guard's error; the purchase returns with the views
    and downloads of record 1 raised from 0 to 1 by the nested calls. *)
Theorem increments_accepted_in_flight :
  let held := set_status ENTERED demo_two in
  reachable demo_two ∧
  succeeded (exec (CallIncrementViews 100 1) held) = true ∧
  succeeded (exec (CallIncrementDownloads 100 1) held) = true ∧
  exec (CallUploadDataset 100 7 "C" "" true false false 0) held
    = Revert ReentrantCall held ∧
  succeeded (exec reentering_purchase demo_two) = true ∧
  views (dataset demo_two 1) = 0 ∧
  downloads (dataset demo_two 1) = 0 ∧
  views (dataset (transact demo_two reentering_purchase) 1) = 1 ∧
  downloads (dataset (transact demo_two reentering_purchase) 1) = 1.
Proof. split; [apply reachable_demo_two|by vm_compute]. Qed.

(** C5 (the code diverges). A successful purchase of dataset 0 leaves
    record 1, another dataset, changed: the token's nested
    [incrementViews(1)] and [incrementDownloads(1)] are accepted during the
    transfer, so the purchase returns with record 1 differing from what it
    was before the call, while the settlement of dataset 0 itself is as
    claimed. *)
Theorem purchase_changes_other_record :
  reachable demo_two ∧
  succeeded (exec reentering_purchase demo_two) = true ∧
  dataset (transact demo_two reentering_purchase) 1 ≠ dataset demo_two 1 ∧
  dataset (transact demo_two reentering_purchase) 1
    = with_views 1 (with_downloads 1 (dataset demo_two 1)) ∧
  earnings (dataset (transact demo_two reentering_purchase) 0)
    = earnings (dataset demo_two 0) + 10 ∧
  earned (transact demo_two reentering_purchase) 2 = earned demo_two 2 + 10 ∧
  has_access (transact demo_two reentering_purchase) 0 3 = true.
Proof.
  split; [apply reachable_demo_two|]. split_and!; by vm_compute.
Qed.

(** ** Grants *)

Lemma exec_access_monotone c st st' :
  exec c st = Ok tt st' →
  ∀ j a, has_access st j a = true → has_access st' j a = true.
Proof.
  apply (exec_R (λ s s', ∀ j a, has_access s j a = true →
                                has_access s' j a = true)); clear.
  - done.
  - eauto.
  - intros sender token sym st st' H j a.
    apply addPaymentToken_Ok in H as (_ & _ & Ha & _).
    unfold has_access. by rewrite Ha.
  - intros sender now cid an pub priv paid price st st' H j a.
    apply uploadDataset_Ok in H as (_ & _ & _ & _ & _ & _ & _ & _ & Ha & _).
    unfold has_access. by rewrite Ha.
  - intros sender id st st' H j a. by apply incrementViews_Ok in H as (_ & _ & ->).
  - intros sender id st st' H j a.
    by apply incrementDownloads_Ok in H as (_ & _ & ->).
  - intros tf sender id token st st' Htf H j a Hja.
    apply purchaseDataset_Ok in H
      as (_ & _ & _ & _ & _ & _ & b & mid & Hcall & _ & _ & _ & _ & Ha & _).
    rewrite (has_access_insert mid st' _ _ j a Ha). case_decide; [done|].
    by apply (Htf _ _ _ _ _ _ _ Hcall).
Qed.

Lemma transact_access_monotone st c j a :
  has_access st j a = true → has_access (transact st c) j a = true.
Proof.
  unfold transact. destruct (exec c st) as [[] st'|] eqn:He; simpl; [|done].
  by apply (exec_access_monotone c st st' He).
Qed.

Lemma reachable_fold st calls :
  reachable st → reachable (fold_left transact calls st).
Proof.
  revert st. induction calls as [|c l IH]; intros st Hr; simpl; [done|].
  apply IH. by apply reach_call.
Qed.

Lemma fold_access_monotone st calls j a :
  has_access st j a = true → has_access (fold_left transact calls st) j a = true.
Proof.
  revert st. induction calls as [|c l IH]; intros st H; simpl; [done|].
  apply IH. by apply transact_access_monotone.
Qed.

Lemma purchase_already tf sender id token st :
  status st = NOT_ENTERED → qualifies (dataset st id) = true →
  isPaid (dataset st id) = true → has_access st id sender = true →
  purchaseDataset tf sender id token st = Revert Already (set_status ENTERED st).
Proof.
  intros Hs Hq Hp Ha. unfold purchaseDataset. mrun. rewrite Hs.
  change (dataset (set_status ENTERED st) id) with (dataset st id).
  unfold qualifies in Hq. rewrite Hq. cbv beta iota. rewrite Hp.
  cbv beta iota.
  change (has_access (set_status ENTERED st) id sender)
    with (has_access st id sender).
  by rewrite Ha.
Qed.

(** C6. In a reachable ledger, once a buyer's purchase of a dataset has
    succeeded, whatever calls follow, every further purchase of it by that
    buyer reverts with [Already], having written nothing but the guard
    flag, and the transaction leaves the state (earnings, publisher
    earnings, grants) as it was; the grant is still set.  No call ever
    clears a grant that is set. *)
Theorem purchase_at_most_once st buyer id token reentry answer later
    token' reentry' answer' :
  reachable st →
  succeeded (exec (CallPurchaseDataset buyer id token reentry answer) st) = true →
  let st1 := transact st (CallPurchaseDataset buyer id token reentry answer) in
  let st2 := fold_left transact later st1 in
  let again := CallPurchaseDataset buyer id token' reentry' answer' in
  exec again st2 = Revert Already (set_status ENTERED st2) ∧
  transact st2 again = st2 ∧
  has_access st2 id buyer = true ∧
  (∀ s c j a, has_access s j a = true → has_access (transact s c) j a = true).
Proof.
  intros Hr Hok st1 st2 again.
  assert (has_access st1 id buyer = true) as H1.
  { unfold st1, transact.
    destruct (exec _ st) as [[] s1|] eqn:He; [|done]. simpl in *.
    apply purchaseDataset_Ok in He
      as (_ & _ & _ & _ & _ & _ & b & mid & _ & _ & _ & _ & _ & Ha & _).
    by rewrite (has_access_insert mid s1 _ _ id buyer Ha), decide_True. }
  assert (has_access st2 id buyer = true) as H2
    by by apply fold_access_monotone.
  assert (reachable st2) as Hr2
    by by apply reachable_fold, reach_call.
  destruct (reachable_inv st2 Hr2) as [Hinv Hs].
  destruct (inv_access _ Hinv id buyer H2) as [Hq Hp].
  assert (exec again st2 = Revert Already (set_status ENTERED st2)) as Hrev
    by by apply purchase_already.
  split_and!; try done.
  - unfold transact. by rewrite Hrev.
  - intros s c j a. apply transact_access_monotone.
Qed.

Lemma purchase_at_most_once_witness :
  exec (CallPurchaseDataset 3 0 100 [] TransferTrue)
    (fold_left transact [CallIncrementViews 3 0] demo_sold)
  = Revert Already
      (set_status ENTERED (fold_left transact [CallIncrementViews 3 0] demo_sold)).
Proof.
  apply (purchase_at_most_once demo_listed 3 0 100 [] TransferTrue
           [CallIncrementViews 3 0] 100 [] TransferTrue).
  - apply reachable_demo_listed.
  - by vm_compute.
Defined.

(** ** Earnings accounting *)

(** C7. In every reachable state, each identity's publisher earnings equal
    the sum of the earnings of the datasets it uploaded. *)
Theorem publisher_earnings_sum st u :
  reachable st → earned st u = owned_earnings st u.
Proof.
  intros Hr. destruct (reachable_inv st Hr) as [Hinv _].
  apply (inv_earnings _ Hinv).
Qed.

Lemma publisher_earnings_sum_witness :
  earned demo_sold 2 = owned_earnings demo_sold 2.
Proof. apply publisher_earnings_sum, reachable_demo_sold. Defined.

(** ** Bounded counters *)

(** C9. When the counter a call would bump is at the maximum of its
    width, the call reverts (with the overflow panic when its guard lets
    the caller through, with the guard's error otherwise) at a point where
    nothing has been written, and the counter keeps its value. *)
Theorem counter_overflow_rejected k sender id st :
  counter_value k (dataset st id) = Uint.max 48 →
  ∃ e,
    exec (increment k sender id) st = Revert e st ∧
    (e = Panic_overflow ∨ (k = Views ∧ e = No_view) ∨
     (k = Downloads ∧ e = No_download)) ∧
    (uploader (dataset st id) = sender → e = Panic_overflow) ∧
    transact st (increment k sender id) = st ∧
    counter_value k (dataset (transact st (increment k sender id)) id)
      = Uint.max 48.
Proof.
  intros Hmax.
  assert (∀ e, exec (increment k sender id) st = Revert e st →
    transact st (increment k sender id) = st) as Hroll
    by (intros e He; unfold transact; by rewrite He).
  assert ((Uint.max 48 + 1 <=? Uint.max 48) = false) as Hover by done.
  destruct k; simpl in *.
  - unfold incrementViews, canView in *. mrun.
    destruct (uploader (dataset st id) =? sender) eqn:Hu; simpl in *.
    + rewrite Hmax, Hover in *. exists Panic_overflow.
      split_and!; eauto. rewrite (Hroll _ eq_refl). done.
    + apply N.eqb_neq in Hu.
      destruct (isPublic (dataset st id) && negb (isPrivate (dataset st id)));
        simpl in *.
      * rewrite Hmax, Hover in *. exists Panic_overflow.
        split_and!; eauto. rewrite (Hroll _ eq_refl). done.
      * exists No_view. split_and!; eauto; [done|].
        rewrite (Hroll _ eq_refl). done.
  - unfold incrementDownloads, canDownload in *. mrun.
    destruct (uploader (dataset st id) =? sender) eqn:Hu; simpl in *.
    + rewrite Hmax, Hover in *. exists Panic_overflow.
      split_and!; eauto. rewrite (Hroll _ eq_refl). done.
    + apply N.eqb_neq in Hu.
      destruct (negb (isPaid (dataset st id)) || has_access st id sender);
        simpl in *.
      * rewrite Hmax, Hover in *. exists Panic_overflow.
        split_and!; eauto. rewrite (Hroll _ eq_refl). done.
      * exists No_download. split_and!; eauto; [done|].
        rewrite (Hroll _ eq_refl). done.
Qed.

Lemma counter_overflow_rejected_witness :
  transact demo_saturated (increment Views 2 0) = demo_saturated.
Proof.
  destruct (counter_overflow_rejected Views 2 0 demo_saturated)
    as (e & _ & _ & _ & H & _); [reflexivity|exact H].
Defined.

Lemma upload_violation_reverts_witness :
  transact demo_listed (CallUploadDataset 4 2000 "B" "" false true true 10)
  = demo_listed.
Proof.
  destruct (upload_violation_reverts demo_listed 4 2000 "B" "" false true true 10)
    as (e & dirty & _ & _ & _ & _ & _ & _ & _ & H); [|exact H].
  right; right; right; left. split; reflexivity.
Defined.

(** ** Ids that no upload has assigned *)

Lemma purchase_not_public tf sender id token st :
  status st = NOT_ENTERED → isPublic (dataset st id) = false →
  purchaseDataset tf sender id token st
  = Revert Not_public (set_status ENTERED st).
Proof.
  intros Hs Hp. unfold purchaseDataset. mrun. rewrite Hs.
  change (dataset (set_status ENTERED st) id) with (dataset st id).
  by rewrite Hp.
Qed.

(** C10, as the code has it. For an id at or beyond the dataset count of a
    reachable ledger, the stored record has the zero value in every field
    but its two counters (zero uploader, not public, not private, not
    paid), so [getDataset] and [incrementViews] revert with the view
    guard's error for every caller other than the zero address, and
    [purchaseDataset] reverts with its not-public error for every caller
    and token; none of these calls leaves a write behind, and there is no
    error of their own for a missing id. *)
Theorem unassigned_id_guards st id :
  reachable st → datasetCount st <= id →
  blank (dataset st id) ∧
  (∀ sender, sender ≠ zero_address →
     getDataset sender id st = Revert No_view st ∧
     exec (CallIncrementViews sender id) st = Revert No_view st ∧
     transact st (CallIncrementViews sender id) = st) ∧
  (∀ sender token reentry answer,
     exec (CallPurchaseDataset sender id token reentry answer) st
       = Revert Not_public (set_status ENTERED st) ∧
     transact st (CallPurchaseDataset sender id token reentry answer) = st).
Proof.
  intros Hr Hid. destruct (reachable_inv st Hr) as [Hinv Hs].
  pose proof (inv_unassigned _ Hinv id Hid) as Hb.
  destruct (blank_fields _ Hb) as (Hu & Hpub & _).
  split_and!; [done| |].
  - intros sender Hne.
    assert (incrementViews sender id st = Revert No_view st) as Hv.
    { unfold incrementViews, canView. mrun. rewrite Hu, Hpub.
      replace (zero_address =? sender) with false; [done|].
      symmetry. apply N.eqb_neq. congruence. }
    split_and!.
    + unfold getDataset, canView. mrun. rewrite Hu, Hpub.
      replace (zero_address =? sender) with false; [done|].
      symmetry. apply N.eqb_neq. congruence.
    + exact Hv.
    + unfold transact. simpl. by rewrite Hv.
  - intros sender token reentry answer.
    assert (exec (CallPurchaseDataset sender id token reentry answer) st
            = Revert Not_public (set_status ENTERED st)) as Hp
      by (simpl; by apply purchase_not_public).
    split; [done|]. unfold transact. by rewrite Hp.
Qed.

Lemma unassigned_id_guards_witness :
  exec (CallPurchaseDataset 3 7 100 [] TransferTrue) demo_sold
  = Revert Not_public (set_status ENTERED demo_sold).
Proof.
  destruct (unassigned_id_guards demo_sold 7) as (_ & _ & H).
  - apply reachable_demo_sold.
  - by vm_compute.
  - apply (H 3 100 [] TransferTrue).
Defined.

(** C10, as stated, fails: [incrementDownloads] passes its guard on an
    unassigned id (the zero record is not paid) and bumps the counter of a
    record that no upload has written. *)
Lemma unassigned_record_not_default :
  ¬ (∀ st id, reachable st → datasetCount st <= id →
       dataset st id = default_Dataset).
Proof.
  intros H.
  specialize (H (transact (initial 1) (CallIncrementDownloads 7 0)) 0).
  assert (downloads default_Dataset = 1) as Hd; [|done].
  rewrite <- H; [by vm_compute|apply reach_call, reach_deploy|by vm_compute].
Qed.

(** ** Pagination *)

Lemma listed_cons st i l :
  listed st (i :: l) =
  if qualifies (dataset st i) then dataset st i :: listed st l else listed st l.
Proof.
  unfold listed. rewrite fmap_cons.
  destruct (qualifies (dataset st i)) eqn:Hq.
  - by rewrite filter_cons_True.
  - rewrite filter_cons_False; [done|]. by rewrite Hq.
Qed.

Lemma count_loop_spec st l total :
  count_loop st l total = total + N.of_nat (length (listed st l)).
Proof.
  revert total. induction l as [|i l IH]; intros total; simpl; [lia|].
  rewrite IH, listed_cons. destruct (qualifies (dataset st i)); simpl; lia.
Qed.

Lemma page_loop_spec st s e :
  s <= e → ∀ l p idx cursor,
  N.of_nat (length p) = e - s → idx = cursor - s →
  let L := take (N.to_nat (e - N.max cursor s))
             (drop (N.to_nat (s - cursor)) (listed st l)) in
  page_loop st s e l p idx cursor
  = inr (take (N.to_nat idx) p ++ L ++ drop (N.to_nat idx + length L)%nat p).
Proof.
  intros Hse. induction l as [|i l IH]; intros p idx cursor Hp Hidx L.
  - subst L. unfold listed. rewrite fmap_nil, filter_nil, drop_nil, take_nil.
    cbn [page_loop app length]. rewrite Nat.add_0_r. by rewrite take_drop.
  - simpl. subst L. rewrite listed_cons.
    destruct (qualifies (dataset st i)) eqn:Hq; [|by apply IH].
    destruct (s <=? cursor) eqn:H1; simpl.
    + apply N.leb_le in H1. destruct (cursor <? e) eqn:H2.
      * apply N.ltb_lt in H2.
        replace (idx <? N.of_nat (length p)) with true
          by (symmetry; apply N.ltb_lt; lia).
        replace (N.to_nat (s - cursor)) with 0%nat by lia.
        replace (N.to_nat (e - N.max cursor s)) with (S (N.to_nat (e - (cursor + 1)))) by lia.
        simpl.
        destruct (e <=? cursor + 1) eqn:H3.
        -- apply N.leb_le in H3.
           replace (N.to_nat (e - (cursor + 1))) with 0%nat by lia.
           rewrite take_0. simpl.
           rewrite insert_take_drop by lia. by rewrite Nat.add_1_r.
        -- apply N.leb_gt in H3.
           rewrite IH; [|rewrite length_insert; lia|lia].
           replace (N.to_nat (s - (cursor + 1))) with 0%nat by lia.
           replace (N.max (cursor + 1) s) with (cursor + 1) by lia.
           simpl. f_equal.
           replace (N.to_nat (idx + 1)) with (S (N.to_nat idx)) by lia.
           rewrite (take_S_r _ _ (dataset st i))
             by (apply list_lookup_insert_eq; lia).
           rewrite take_insert_ge by lia.
           rewrite drop_insert_lt by lia.
           rewrite <- app_assoc, drop_0, Nat.add_succ_r. done.
      * apply N.ltb_ge in H2.
        replace (e <=? cursor + 1) with true by (symmetry; apply N.leb_le; lia).
        replace (N.to_nat (e - N.max cursor s)) with 0%nat by lia.
        rewrite take_0. simpl. rewrite Nat.add_0_r. by rewrite take_drop.
    + apply N.leb_gt in H1. subst idx.
      replace (cursor - s) with 0 by lia. simpl.
      replace (N.max cursor s) with s by lia.
      replace (N.to_nat (s - cursor)) with (S (N.to_nat (s - (cursor + 1)))) by lia.
      simpl.
      destruct (e <=? cursor + 1) eqn:H3.
      * apply N.leb_le in H3.
        replace (N.to_nat (e - s)) with 0%nat by lia.
        by rewrite take_0.
      * apply N.leb_gt in H3.
        rewrite IH; [|done|lia].
        replace (cursor + 1 - s) with 0 by lia.
        replace (N.max (cursor + 1) s) with s by lia. done.
Qed.

Lemma count_loop_total st :
  count_loop st (ids (datasetCount st)) 0 = public_total st.
Proof. by rewrite count_loop_spec. Qed.

(** The query in closed form: the slice of the public listing that starts
    at [start] and has at most [limit] entries. *)
Lemma getPublicDatasetPage_spec st start limit :
  getPublicDatasetPage st start limit =
  if public_total st <=? start then inr ([], 0)
  else if Uint.max256 <? start + limit then inl Panic_overflow
  else inr (take (N.to_nat limit) (drop (N.to_nat start) (public_datasets st)),
            N.min (start + limit) (public_total st)).
Proof.
  unfold getPublicDatasetPage. rewrite count_loop_total.
  destruct (public_total st <=? start) eqn:Hs; [done|].
  apply N.leb_gt in Hs.
  destruct (Uint.max256 <? start + limit) eqn:Ho; [done|].
  set (end_ := if public_total st <? start + limit
               then public_total st else start + limit).
  assert (end_ = N.min (start + limit) (public_total st)) as Hend.
  { unfold end_. destruct (public_total st <? start + limit) eqn:Hlt;
      [apply N.ltb_lt in Hlt|apply N.ltb_ge in Hlt]; lia. }
  rewrite page_loop_spec; [|lia|rewrite length_replicate; lia|lia].
  fold (public_datasets st). unfold public_total in *.
  set (Q := public_datasets st) in *.
  replace (N.to_nat (start - 0)) with (N.to_nat start) by lia.
  replace (N.to_nat (end_ - N.max 0 start)) with (N.to_nat (end_ - start))
    by lia.
  assert (length (take (N.to_nat (end_ - start)) (drop (N.to_nat start) Q))
          = N.to_nat (end_ - start)) as Hlen.
  { rewrite length_take, length_drop. lia. }
  rewrite Hlen. simpl. rewrite drop_replicate, Nat.sub_diag. simpl.
  rewrite app_nil_r, Hend. f_equal. f_equal.
  destruct (N.le_gt_cases (start + limit) (N.of_nat (length Q))) as [Hle|Hgt].
  - f_equal. lia.
  - rewrite !take_ge; [done|rewrite length_drop; lia..].
Qed.

(** C3, as the code has it. With [limit = 0] and [start] below the number
    of public datasets the query returns an empty page and [start] as the
    next cursor; with [start] at or beyond that number it returns an empty
    page and the cursor [0]. *)
Theorem page_edge_cases st start limit :
  (limit = 0 → start <= Uint.max256 → start < public_total st →
     getPublicDatasetPage st start limit = inr ([], start)) ∧
  (public_total st <= start →
     getPublicDatasetPage st start limit = inr ([], 0)).
Proof.
  rewrite getPublicDatasetPage_spec. split.
  - intros -> Hmax Hlt.
    replace (public_total st <=? start) with false
      by (symmetry; apply N.leb_gt; lia).
    replace (Uint.max256 <? start + 0) with false
      by (symmetry; apply N.ltb_ge; lia).
    rewrite take_0. do 2 f_equal. lia.
  - intros Hge.
    by replace (public_total st <=? start) with true
      by (symmetry; apply N.leb_le; lia).
Qed.

Lemma page_edge_cases_witness :
  getPublicDatasetPage demo_sold 0 0 = inr ([], 0) ∧
  getPublicDatasetPage demo_sold 1 10 = inr ([], 0).
Proof.
  split.
  - apply (proj1 (page_edge_cases demo_sold 0 0)); by vm_compute.
  - apply (proj2 (page_edge_cases demo_sold 1 10)); by vm_compute.
Defined.

(** C3, as stated, fails: the cursor returned with an exhausted listing is
    [0], the same value a caller holds as the cursor of the first page. *)
Lemma sentinel_is_cursor_zero : ¬ sentinel_distinct_from_cursor_zero.
Proof.
  intros H. apply (H demo_sold 1 10 [] 0); by vm_compute.
Qed.

Example exhausted_answer_is_ambiguous :
  public_total demo_sold = 1 ∧
  getPublicDatasetPage demo_sold 0 0 = getPublicDatasetPage demo_sold 1 10.
Proof. by vm_compute. Qed.



Lemma purchase_effects_witness :
  earnings (dataset demo_sold 0) = earnings (dataset demo_listed 0) + 10.
Proof.
  assert (exec (CallPurchaseDataset 3 0 100 [] TransferTrue) demo_listed
          = Ok tt demo_sold) as H by by vm_compute.
  apply (purchase_effects demo_listed 3 0 100 [] TransferTrue demo_sold H).
Defined.

(** * Further properties *)

Lemma uploadDataset_Ok_state sender now cid an pub priv paid price st st' :
  uploadDataset sender now cid an pub priv paid price st = Ok tt st' →
  st' = uploaded sender now cid an pub priv paid price st.
Proof.
  unfold uploadDataset, nonReentrant, uploaded. intros H. inv_Ok; done.
Qed.

Lemma addPaymentToken_Ok_state sender token sym st st' :
  addPaymentToken sender token sym st = Ok tt st' →
  st' = token_added token sym st.
Proof.
  unfold addPaymentToken, onlyOwner, token_added. intros H. inv_Ok. done.
Qed.

Lemma purchaseDataset_Ok_state tf sender id token st st' :
  purchaseDataset tf sender id token st = Ok tt st' →
  ∃ b mid,
    tf token sender (uploader (dataset st id)) (priceInFIL (dataset st id))
      (set_status ENTERED st) = Ok b mid ∧
    st' = settled sender id token mid.
Proof.
  unfold purchaseDataset, nonReentrant, settled. intros H. inv_Ok.
  match goal with Htf : tf _ _ _ _ _ = Ok ?b ?mid |- _ =>
    exists b, mid; split; [exact Htf|]
  end.
  rewrite !dataset_set_dataset_eq.
  reads. rewrite ?lookup_insert_eq. simpl. done.
Qed.

(** ** Payment tokens *)

Lemma addPaymentToken_run sender token sym st :
  addPaymentToken sender token sym st =
  if negb (owner st =? sender) then Revert NotOwner st
  else if token =? zero_address then Revert Zero st
  else if isTokenAccepted st token then Revert Exists st
  else if acceptedTokenCount st + 1 <=? Uint.max 256
       then Ok tt (token_added token sym st)
       else Revert Panic_overflow
              (set_paymentToken token (mkPaymentToken token true sym) st).
Proof.
  unfold addPaymentToken, onlyOwner, isTokenAccepted, token_added. mrun.
  destruct (owner st =? sender); simpl; [|done].
  destruct (token =? zero_address); simpl; [done|].
  destruct (isAccepted (payment_token st token)); simpl; [done|].
  proj. by destruct (acceptedTokenCount st + 1 <=? Uint.max 256).
Qed.

Lemma payment_token_added token sym st t :
  payment_token (token_added token sym st) t =
  if decide (t = token) then mkPaymentToken token true sym
  else payment_token st t.
Proof.
  unfold payment_token, token_added. proj. case_decide as Ht.
  - subst. by rewrite lookup_insert_eq.
  - by rewrite lookup_insert_ne.
Qed.

Lemma accepted_token_at_added token sym st i :
  accepted_token_at (token_added token sym st) i =
  if decide (i = acceptedTokenCount st) then token
  else accepted_token_at st i.
Proof.
  unfold accepted_token_at, token_added. proj. case_decide as Hi.
  - subst. by rewrite lookup_insert_eq.
  - by rewrite lookup_insert_ne.
Qed.

Lemma tokens_ok_added token sym st :
  token ≠ zero_address → isTokenAccepted st token = false →
  tokens_ok st → tokens_ok (token_added token sym st).
Proof.
  intros Hz Hnew [T0 T1 T2 T3 T4 T5].
  assert (∀ t, isTokenAccepted (token_added token sym st) t = true →
               t = token ∨ (t ≠ token ∧ isTokenAccepted st t = true)) as Hacc.
  { intros t. unfold isTokenAccepted. rewrite payment_token_added.
    case_decide; [by left|by right]. }
  assert (acceptedTokenCount (token_added token sym st)
          = acceptedTokenCount st + 1) as Hc by done.
  split.
  - unfold isTokenAccepted. rewrite payment_token_added.
    by rewrite decide_False by done.
  - intros t Ht. rewrite payment_token_added. case_decide; [by subst|].
    apply T1. destruct (Hacc t Ht) as [?|[_ ?]]; done.
  - intros i Hi. rewrite Hc in Hi. unfold isTokenAccepted.
    rewrite accepted_token_at_added.
    destruct (decide (i = acceptedTokenCount st)) as [->|Hic];
      rewrite payment_token_added; [by rewrite decide_True|].
    case_decide; [done|]. apply T2. lia.
  - intros i j Hi Hj. rewrite Hc in Hi, Hj.
    rewrite !accepted_token_at_added.
    destruct (decide (i = acceptedTokenCount st)) as [->|Hic],
             (decide (j = acceptedTokenCount st)) as [->|Hjc]; try done.
    + intros Heq. specialize (T2 j ltac:(lia)). congruence.
    + intros Heq. specialize (T2 i ltac:(lia)). congruence.
    + apply T3; lia.
  - intros t Ht. rewrite Hc. destruct (Hacc t Ht) as [->|[Hne Hold]].
    + exists (acceptedTokenCount st). split; [lia|].
      by rewrite accepted_token_at_added, decide_True.
    + destruct (T4 t Hold) as (i & Hi & Hat). exists i. split; [lia|].
      rewrite accepted_token_at_added, decide_False by lia. done.
  - rewrite Hc, ids_succ, fmap_app.
    change (events (token_added token sym st))
      with (events st ++ [PaymentTokenAdded token sym]).
    rewrite omap_app, T5. simpl. f_equal.
    + apply list_fmap_ext. intros k i Hk.
      apply list_elem_of_lookup_2, elem_of_ids in Hk.
      rewrite accepted_token_at_added, decide_False by lia. done.
    + by rewrite accepted_token_at_added, decide_True.
Qed.

Lemma tokens_ok_same s s' : same_tokens s s' → tokens_ok s → tokens_ok s'.
Proof.
  intros (Hp & Hi & Hc & He) [T0 T1 T2 T3 T4 T5].
  split; unfold isTokenAccepted, payment_token, accepted_token_at in *;
    rewrite ?Hp, ?Hi, ?Hc, ?He; done.
Qed.

Lemma same_tokens_uploaded sender now cid an pub priv paid price st :
  same_tokens st (uploaded sender now cid an pub priv paid price st).
Proof.
  unfold same_tokens, uploaded. destruct (pub && negb priv); proj;
    split_and!; try done; rewrite ?omap_app; simpl; by rewrite ?app_nil_r.
Qed.

Lemma same_tokens_settled sender id token mid :
  same_tokens mid (settled sender id token mid).
Proof.
  unfold same_tokens, settled. proj. split_and!; try done.
  rewrite omap_app. simpl. by rewrite app_nil_r.
Qed.

Lemma same_tokens_set_dataset id d st : same_tokens st (set_dataset id d st).
Proof. by unfold same_tokens. Qed.

Lemma exec_tokens_ok c st st' :
  exec c st = Ok tt st' → tokens_ok st → tokens_ok st'.
Proof.
  apply (exec_R (λ s s', tokens_ok s → tokens_ok s')); clear.
  - done.
  - eauto.
  - intros sender token sym st st' H Hok.
    rewrite addPaymentToken_run in H.
    destruct (negb (owner st =? sender)); [done|].
    destruct (token =? zero_address) eqn:Hz; [done|].
    destruct (isTokenAccepted st token) eqn:Hn; [done|].
    destruct (_ <=? _); [|done]. simplify_eq.
    apply tokens_ok_added; [by apply N.eqb_neq|done..].
  - intros sender now cid an pub priv paid price st st' H.
    apply uploadDataset_Ok_state in H as ->.
    apply tokens_ok_same, same_tokens_uploaded.
  - intros sender id st st' H. apply incrementViews_Ok in H as (_ & _ & ->).
    apply tokens_ok_same, same_tokens_set_dataset.
  - intros sender id st st' H. apply incrementDownloads_Ok in H as (_ & _ & ->).
    apply tokens_ok_same, same_tokens_set_dataset.
  - intros tf sender id token st st' Htf H Hok.
    apply purchaseDataset_Ok_state in H as (b & mid & Hcall & ->).
    apply (tokens_ok_same mid); [apply same_tokens_settled|].
    apply (Htf _ _ _ _ _ _ _ Hcall).
    by apply (tokens_ok_same st).
Qed.

Lemma tokens_ok_initial deployer : tokens_ok (initial deployer).
Proof.
  split; unfold isTokenAccepted, payment_token, accepted_token_at; simpl;
    try (intros; rewrite ?lookup_empty in *; simpl in *; done || lia).
Qed.

Lemma reachable_tokens_ok st : reachable st → tokens_ok st.
Proof.
  induction 1 as [deployer|st c _ IH]; [apply tokens_ok_initial|].
  unfold transact. destruct (exec c st) as [[] st'|] eqn:He; simpl; [|done].
  by apply (exec_tokens_ok c st st' He).
Qed.

(** ** The registry *)

Lemma filter_ext_in {A} (P1 P2 : A → Prop)
    `{!∀ x, Decision (P1 x), !∀ x, Decision (P2 x)} (l : list A) :
  (∀ x, x ∈ l → P1 x ↔ P2 x) → filter P1 l = filter P2 l.
Proof.
  induction l as [|x l IH]; intros Hext; [done|].
  rewrite !filter_cons. rewrite IH by (intros y Hy; apply Hext; by right).
  pose proof (Hext x ltac:(left)) as Hx.
  destruct (decide (P1 x)), (decide (P2 x)); try done; tauto.
Qed.

Lemma uploadDataset_Ok_flags sender now cid an pub priv paid price st st' :
  uploadDataset sender now cid an pub priv paid price st = Ok tt st' →
  pub && priv = false ∧ priv && paid = false ∧ (paid = true → 0 < price).
Proof.
  unfold uploadDataset, nonReentrant. intros H. inv_Ok.
  all: repeat match goal with
         | H : negb _ = true |- _ => apply negb_true_iff in H
         | H : (0 <? _) = true |- _ => apply N.ltb_lt in H
         end.
  all: split_and!; try done; by destruct pub.
Qed.

Lemma dataset_uploaded sender now cid an pub priv paid price st j :
  dataset (uploaded sender now cid an pub priv paid price st) j =
  if decide (j = datasetCount st)
  then mkDataset cid an sender pub priv (Uint.cast 48 now) 0 0 paid
         (Uint.cast 128 price) 0
  else dataset st j.
Proof.
  apply dataset_insert. unfold uploaded. by destruct (pub && negb priv).
Qed.

Lemma datasetCount_uploaded sender now cid an pub priv paid price st :
  datasetCount (uploaded sender now cid an pub priv paid price st)
  = datasetCount st + 1.
Proof. unfold uploaded. by destruct (pub && negb priv). Qed.

Lemma cid_used_uploaded sender now cid an pub priv paid price st c :
  cid_used (uploaded sender now cid an pub priv paid price st) c =
  if decide (c = cid) then true else cid_used st c.
Proof.
  unfold cid_used, uploaded. destruct (pub && negb priv); proj;
    (case_decide as Hc; [subst; by rewrite lookup_insert_eq
                        |by rewrite lookup_insert_ne]).
Qed.

Lemma uploads_of_uploaded sender now cid an pub priv paid price st u :
  uploads_of (uploaded sender now cid an pub priv paid price st) u =
  if decide (u = sender) then uploads_of st sender ++ [datasetCount st]
  else uploads_of st u.
Proof.
  unfold uploads_of, uploaded. destruct (pub && negb priv); proj;
    (case_decide as Hc; [subst; by rewrite lookup_insert_eq
                        |by rewrite lookup_insert_ne]).
Qed.

Lemma events_uploaded sender now cid an pub priv paid price st :
  events (uploaded sender now cid an pub priv paid price st) =
  events st ++
  DatasetUploaded (datasetCount st) sender pub paid (Uint.cast 128 price) ::
  (if pub && negb priv then [PublicDatasetListed (datasetCount st) sender]
   else []).
Proof.
  unfold uploaded. destruct (pub && negb priv); proj;
    by rewrite <- ?app_assoc.
Qed.

Lemma registry_ok_uploaded sender now cid an pub priv paid price st :
  cid_used st cid = false → cid ≠ "" →
  pub && priv = false → priv && paid = false →
  registry_ok st →
  registry_ok (uploaded sender now cid an pub priv paid price st).
Proof.
  intros Hfresh Hne Hpp Hpr [R1 R2 R3 R4 R5 R6 R7].
  set (st' := uploaded sender now cid an pub priv paid price st).
  pose proof (dataset_uploaded sender now cid an pub priv paid price st) as Hget.
  pose proof (cid_used_uploaded sender now cid an pub priv paid price st) as Hused.
  pose proof (datasetCount_uploaded sender now cid an pub priv paid price st) as Hc.
  fold st' in Hget, Hused, Hc.
  assert (∀ i, i ∈ ids (datasetCount st) → dataset st' i = dataset st i) as Hold.
  { intros i Hi%elem_of_ids. rewrite Hget, decide_False by lia. done. }
  assert (dataset st' (datasetCount st) =
          mkDataset cid an sender pub priv (Uint.cast 48 now) 0 0 paid
            (Uint.cast 128 price) 0) as Hnew
    by (by rewrite Hget, decide_True).
  split.
  - intros i Hi. rewrite Hc in Hi. rewrite Hget, Hused.
    case_decide as Hic; simpl; [by rewrite decide_True|].
    destruct (R1 i ltac:(lia)) as [? ?]. split; [done|]. by case_decide.
  - intros i j Hi Hj. rewrite Hc in Hi, Hj. rewrite !Hget.
    destruct (decide (i = datasetCount st)) as [->|Hic],
             (decide (j = datasetCount st)) as [->|Hjc]; simpl; try done.
    + intros Heq. destruct (R1 j ltac:(lia)) as [_ Hu]. congruence.
    + intros Heq. destruct (R1 i ltac:(lia)) as [_ Hu]. congruence.
    + apply R2; lia.
  - intros c Hcu. rewrite Hused in Hcu. rewrite Hc. case_decide as Hcc.
    + subst c. exists (datasetCount st). split; [lia|].
      by rewrite Hget, decide_True.
    + destruct (R3 c Hcu) as (i & Hi & Hci). exists i. split; [lia|].
      by rewrite Hget, decide_False by lia.
  - intros i. rewrite Hget. case_decide; [done|apply R4].
  - intros u. unfold st'. rewrite uploads_of_uploaded. fold st'.
    rewrite Hc, ids_succ, filter_app.
    rewrite (filter_ext_in (λ i, uploader (dataset st' i) = u)
               (λ i, uploader (dataset st i) = u) (ids (datasetCount st)))
      by (intros i Hi; by rewrite Hold).
    rewrite filter_cons, filter_nil, Hnew. simpl.
    destruct (decide (u = sender)) as [->|Hu].
    + rewrite decide_True by done. by rewrite R5.
    + rewrite decide_False by done. by rewrite app_nil_r, R5.
  - rewrite Hc, ids_succ. unfold st'.
    rewrite events_uploaded, omap_app, R6. f_equal.
    by destruct (pub && negb priv).
  - rewrite Hc, ids_succ, filter_app.
    replace (events st') with (events st ++
      DatasetUploaded (datasetCount st) sender pub paid (Uint.cast 128 price) ::
      (if pub && negb priv then [PublicDatasetListed (datasetCount st) sender]
       else [])) by (symmetry; apply events_uploaded).
    rewrite omap_app, R7.
    rewrite (filter_ext_in (λ i, qualifies (dataset st' i) = true)
               (λ i, qualifies (dataset st i) = true) (ids (datasetCount st)))
      by (intros i Hi; by rewrite Hold).
    f_equal. rewrite filter_cons, filter_nil, Hnew.
    unfold qualifies. simpl. by destruct (pub && negb priv).
Qed.

Lemma listing_fields d d' :
  listing d' = listing d →
  datasetCID d' = datasetCID d ∧ uploader d' = uploader d ∧
  isPublic d' = isPublic d ∧ isPrivate d' = isPrivate d ∧
  isPaid d' = isPaid d ∧ priceInFIL d' = priceInFIL d ∧
  qualifies d' = qualifies d.
Proof.
  unfold listing, qualifies. intros H. injection H as ????????.
  split_and!; congruence.
Qed.

Lemma registry_ok_same s s' : same_registry s s' → registry_ok s → registry_ok s'.
Proof.
  intros (Hc & Hcid & Hup & Hlog & Hlist & Hl) [R1 R2 R3 R4 R5 R6 R7].
  assert (∀ j, datasetCID (dataset s' j) = datasetCID (dataset s j) ∧
               uploader (dataset s' j) = uploader (dataset s j) ∧
               isPublic (dataset s' j) = isPublic (dataset s j) ∧
               isPrivate (dataset s' j) = isPrivate (dataset s j) ∧
               isPaid (dataset s' j) = isPaid (dataset s j) ∧
               priceInFIL (dataset s' j) = priceInFIL (dataset s j) ∧
               qualifies (dataset s' j) = qualifies (dataset s j)) as Hf
    by (intros j; apply listing_fields, Hl).
  assert (∀ c, cid_used s' c = cid_used s c) as Hused
    by (intros c; unfold cid_used; by rewrite Hcid).
  split; rewrite ?Hc.
  - intros i Hi. destruct (Hf i) as (-> & _). rewrite Hused. by apply R1.
  - intros i j Hi Hj. destruct (Hf i) as (-> & _), (Hf j) as (-> & _).
    by apply R2.
  - intros c Hcu. rewrite Hused in Hcu. destruct (R3 c Hcu) as (i & Hi & Hci).
    exists i. split; [done|]. by destruct (Hf i) as (-> & _).
  - intros i. destruct (Hf i) as (_ & _ & -> & -> & -> & _). apply R4.
  - intros u. unfold uploads_of. rewrite Hup. fold (uploads_of s u).
    rewrite R5. apply list_filter_iff. intros i.
    by destruct (Hf i) as (_ & -> & _).
  - by rewrite Hlog.
  - rewrite Hlist, R7. apply list_filter_iff. intros i.
    by destruct (Hf i) as (_ & _ & _ & _ & _ & _ & ->).
Qed.

Lemma same_registry_set_dataset id d' st :
  listing d' = listing (dataset st id) → same_registry st (set_dataset id d' st).
Proof.
  intros Hl. split_and!; try done. intros j.
  destruct (decide (id = j)) as [<-|Hne].
  - by rewrite dataset_set_dataset_eq.
  - by rewrite dataset_set_dataset_ne.
Qed.

Lemma same_registry_settled sender id token mid :
  same_registry mid (settled sender id token mid).
Proof.
  unfold settled. split_and!; try done.
  - proj. rewrite omap_app. simpl. by rewrite app_nil_r.
  - proj. rewrite omap_app. simpl. by rewrite app_nil_r.
  - intros j. match goal with |- listing (dataset ?s j) = _ =>
      assert (datasets s = <[id := with_earnings
        (earnings (dataset mid id) + priceInFIL (dataset mid id))
        (dataset mid id)]> (datasets mid)) as Hd by done end.
    rewrite (dataset_insert _ _ _ _ j Hd). case_decide; [|done].
    subst. by destruct (dataset mid id).
Qed.

Lemma same_registry_token_added token sym st :
  same_registry st (token_added token sym st).
Proof.
  unfold token_added. split_and!; try done; proj; rewrite omap_app; simpl;
    by rewrite app_nil_r.
Qed.

Lemma exec_registry_ok c st st' :
  exec c st = Ok tt st' → registry_ok st → registry_ok st'.
Proof.
  apply (exec_R (λ s s', registry_ok s → registry_ok s')); clear.
  - done.
  - eauto.
  - intros sender token sym st st' H.
    apply addPaymentToken_Ok_state in H as ->.
    apply registry_ok_same, same_registry_token_added.
  - intros sender now cid an pub priv paid price st st' H.
    pose proof (uploadDataset_Ok_flags _ _ _ _ _ _ _ _ _ _ H) as (? & ? & _).
    pose proof (uploadDataset_Ok _ _ _ _ _ _ _ _ _ _ H) as (_ & ? & ? & _).
    apply uploadDataset_Ok_state in H as ->.
    by apply registry_ok_uploaded.
  - intros sender id st st' H. apply incrementViews_Ok in H as (_ & _ & ->).
    by apply registry_ok_same, same_registry_set_dataset.
  - intros sender id st st' H. apply incrementDownloads_Ok in H as (_ & _ & ->).
    by apply registry_ok_same, same_registry_set_dataset.
  - intros tf sender id token st st' Htf H Hok.
    apply purchaseDataset_Ok_state in H as (b & mid & Hcall & ->).
    apply (registry_ok_same mid); [apply same_registry_settled|].
    apply (Htf _ _ _ _ _ _ _ Hcall).
    by apply (registry_ok_same st).
Qed.

Lemma registry_ok_initial deployer : registry_ok (initial deployer).
Proof.
  split; simpl; try done; try (intros; lia).
Qed.

Lemma reachable_registry_ok st : reachable st → registry_ok st.
Proof.
  induction 1 as [deployer|st c _ IH]; [apply registry_ok_initial|].
  unfold transact. destruct (exec c st) as [[] st'|] eqn:He; simpl; [|done].
  by apply (exec_registry_ok c st st' He).
Qed.

(** ** Settlement bookkeeping *)

Lemma settlement_ok_same s s' :
  same_settlement s s' → settlement_ok s → settlement_ok s'.
Proof.
  intros (Ha & Ht & Hc & Hl & Hm & Hd) [S1 S2 S3 S4].
  assert (∀ id a, has_access s' id a = has_access s id a) as Hacc
    by (intros; unfold has_access; by rewrite Ha).
  split.
  - intros id a. rewrite Hacc. destruct (Hd id) as [-> _]. apply S1.
  - rewrite Ht, S2. unfold total_earnings. rewrite Hc. symmetry.
    apply sumN_ext. intros i _. by destruct (Hd i) as [_ ->].
  - by rewrite Ht, Hl.
  - intros id a. rewrite Hacc, S4. by setoid_rewrite Hm.
Qed.

Lemma purchase_logged_snoc l e id a p amt tok :
  purchase_amount e = None →
  DatasetPurchased id a p amt tok ∈ l ++ [e] ↔
  DatasetPurchased id a p amt tok ∈ l.
Proof.
  intros He. rewrite elem_of_app, list_elem_of_singleton. split; [|by left].
  intros [?|<-]; done.
Qed.

Lemma same_settlement_token_added token sym st :
  same_settlement st (token_added token sym st).
Proof.
  unfold token_added. split_and!; try done; proj.
  - rewrite omap_app. simpl. by rewrite app_nil_r.
  - intros. by apply purchase_logged_snoc.
Qed.

Lemma same_settlement_set_dataset id d' st :
  uploader d' = uploader (dataset st id) →
  earnings d' = earnings (dataset st id) →
  same_settlement st (set_dataset id d' st).
Proof.
  intros Hu He. split_and!; try done. intros j.
  destruct (decide (id = j)) as [<-|Hne].
  - by rewrite dataset_set_dataset_eq.
  - by rewrite dataset_set_dataset_ne.
Qed.

Lemma settlement_ok_uploaded sender now cid an pub priv paid price st :
  inv st → settlement_ok st →
  settlement_ok (uploaded sender now cid an pub priv paid price st).
Proof.
  intros Hinv [S1 S2 S3 S4].
  set (st' := uploaded sender now cid an pub priv paid price st).
  pose proof (dataset_uploaded sender now cid an pub priv paid price st) as Hget.
  pose proof (datasetCount_uploaded sender now cid an pub priv paid price st) as Hc.
  pose proof (events_uploaded sender now cid an pub priv paid price st) as Hev.
  fold st' in Hget, Hc, Hev.
  assert (∀ id a, has_access st' id a = has_access st id a) as Hacc.
  { intros. unfold has_access, st', uploaded. by destruct (pub && negb priv). }
  assert (totalPlatformEarnings st' = totalPlatformEarnings st) as Ht.
  { unfold st', uploaded. by destruct (pub && negb priv). }
  split.
  - intros id a Ha. rewrite Hacc in Ha. rewrite Hget.
    case_decide as Hid; [|by apply S1]. subst id.
    destruct (inv_access _ Hinv _ _ Ha) as [Hq _].
    unfold qualifies in Hq. apply andb_true_iff in Hq as [Hq _].
    apply assigned_of_public in Hq; [lia|done].
  - rewrite Ht, S2. unfold total_earnings.
    rewrite Hc, ids_succ, fmap_app, sumN_app. simpl.
    rewrite Hget, decide_True by done. simpl.
    rewrite (sumN_ext (λ i, earnings (dataset st i))
               (λ i, earnings (dataset st' i))); [lia|].
    intros i Hi%elem_of_ids. by rewrite Hget, decide_False by lia.
  - rewrite Ht, S3, Hev, omap_app. simpl.
    destruct (pub && negb priv); simpl; by rewrite app_nil_r.
  - intros id a. rewrite Hacc, S4, Hev.
    setoid_rewrite elem_of_app. setoid_rewrite elem_of_cons.
    split.
    + intros (p & amt & tok & H). exists p, amt, tok. by left.
    + intros (p & amt & tok & [H|[H|H]]); [by exists p, amt, tok|done|].
      destruct (pub && negb priv); [|by inversion H].
      apply list_elem_of_singleton in H. done.
Qed.

Lemma settlement_ok_settled sender id token mid :
  id < datasetCount mid → uploader (dataset mid id) ≠ sender →
  settlement_ok mid → settlement_ok (settled sender id token mid).
Proof.
  intros Hid Hown [S1 S2 S3 S4].
  set (dm := dataset mid id). set (P := priceInFIL dm).
  set (st' := settled sender id token mid).
  assert (datasets st' = <[id := with_earnings (earnings dm + P) dm]>
                           (datasets mid)) as Hd by done.
  assert (hasAccess st' = <[(id, sender) := true]> (hasAccess mid)) as Ha
    by done.
  pose proof (λ j, dataset_insert mid st' _ _ j Hd) as Hget.
  pose proof (λ j a, has_access_insert mid st' _ _ j a Ha) as Hacc.
  assert (events st' =
          events mid ++ [DatasetPurchased id sender (uploader dm) P token])
    as Hev by done.
  assert (totalPlatformEarnings st' = totalPlatformEarnings mid + P) as Ht
    by done.
  assert (datasetCount st' = datasetCount mid) as Hc by done.
  split.
  - intros j a Hja. rewrite Hacc in Hja. rewrite Hget.
    destruct (decide (j = id)) as [->|Hj].
    + simpl. fold dm. destruct (decide (a = sender)) as [->|Hne]; [done|].
      rewrite decide_False in Hja by congruence. by apply S1.
    + rewrite decide_False in Hja by congruence. by apply S1.
  - rewrite Ht, S2. unfold total_earnings. rewrite Hc. symmetry.
    apply (sumN_update _ _ _ id);
      [apply NoDup_ids|by apply elem_of_ids| |].
    + by rewrite Hget, decide_True.
    + intros i Hi. by rewrite Hget, decide_False.
  - rewrite Ht, S3, Hev, omap_app, sumN_app. simpl. lia.
  - intros j a. rewrite Hacc, Hev. setoid_rewrite elem_of_app.
    setoid_rewrite list_elem_of_singleton. case_decide as Hja.
    + simplify_eq. split; [|done]. intros _. eexists _, _, _. by right.
    + rewrite S4. split.
      * intros (p & amt & tok & H). exists p, amt, tok. by left.
      * intros (p & amt & tok & [H|H]); [by exists p, amt, tok|].
        simplify_eq.
Qed.

Lemma exec_settles c st st' : exec c st = Ok tt st' → settles st st'.
Proof.
  apply exec_R; clear.
  - intros s. split; [apply preserves_refl|done].
  - intros a b c [Pab Sab] [Pbc Sbc]. split; [by eapply preserves_trans|].
    intros Ha Hs. destruct (Pab Ha) as (Hb & _). eauto.
  - intros sender token sym st st' H. split; [by eapply preserves_add|].
    intros _. apply addPaymentToken_Ok_state in H as ->.
    apply settlement_ok_same, same_settlement_token_added.
  - intros sender now cid an pub priv paid price st st' H.
    split; [by eapply preserves_upload|].
    apply uploadDataset_Ok_state in H as ->. apply settlement_ok_uploaded.
  - intros sender id st st' H. split; [by eapply preserves_views|].
    intros _. apply incrementViews_Ok in H as (_ & _ & ->).
    by apply settlement_ok_same, same_settlement_set_dataset.
  - intros sender id st st' H. split; [by eapply preserves_downloads|].
    intros _. apply incrementDownloads_Ok in H as (_ & _ & ->).
    by apply settlement_ok_same, same_settlement_set_dataset.
  - intros tf sender id token st st' Htf H.
    split.
    { eapply preserves_purchase; [|exact H].
      intros t f u a s b mid Hc. exact (proj1 (Htf _ _ _ _ _ _ _ Hc)). }
    intros Hinv Hs.
    pose proof (purchaseDataset_Ok _ _ _ _ _ _ H)
      as (_ & Hq & _ & _ & Hown & _).
    apply purchaseDataset_Ok_state in H as (b & mid & Hcall & ->).
    destruct (Htf _ _ _ _ _ _ _ Hcall) as [Pm Sm].
    assert (inv (set_status ENTERED st)) as Hinv'
      by (eapply inv_same_ledger; [..|exact Hinv]; done).
    destruct (Pm Hinv') as (Hm & Em & _).
    assert (id < datasetCount st) as Hid.
    { apply assigned_of_public; [done|].
      unfold qualifies in Hq. by apply andb_true_iff in Hq as [? _]. }
    pose proof (ev_listing _ _ Em id Hid) as Hl.
    apply listing_fields in Hl as (_ & Hu & _).
    pose proof (ev_count _ _ Em) as Hcm.
    apply settlement_ok_settled.
    + change (datasetCount (set_status ENTERED st)) with (datasetCount st) in Hcm.
      lia.
    + rewrite Hu. done.
    + apply Sm; [done|].
      apply (settlement_ok_same st); [|done]. by split_and!.
Qed.

Lemma settlement_ok_initial deployer : settlement_ok (initial deployer).
Proof.
  split; simpl; try done.
  intros id a. unfold has_access. simpl. rewrite lookup_empty. simpl.
  split; [done|]. intros (? & ? & ? & H). by inversion H.
Qed.

Lemma reachable_settlement_ok st : reachable st → settlement_ok st.
Proof.
  induction 1 as [deployer|st c Hr IH]; [apply settlement_ok_initial|].
  unfold transact. destruct (exec c st) as [[] st'|] eqn:He; simpl; [|done].
  destruct (exec_settles c st st' He) as [_ Hs].
  apply Hs; [by apply reachable_inv|done].
Qed.

(** ** Purchased ids *)

Lemma purchased_by_cons st sender i l :
  purchased_by st sender (i :: l) =
  if has_access st i sender && negb (uploader (dataset st i) =? sender)
  then i :: purchased_by st sender l else purchased_by st sender l.
Proof.
  unfold purchased_by. rewrite filter_cons.
  case_decide as Hd.
  - destruct Hd as [-> Hu%N.eqb_neq]. by rewrite Hu.
  - destruct (has_access st i sender); [|done].
    destruct (uploader (dataset st i) =? sender) eqn:Hu; [done|].
    apply N.eqb_neq in Hu. by destruct Hd.
Qed.

Lemma purchased_loop_spec st sender l :
  ∀ arr cnt, (N.to_nat cnt + length l ≤ length arr)%nat →
  purchased_loop st sender l arr cnt =
  inr (take (N.to_nat cnt) arr ++ purchased_by st sender l ++
       drop (N.to_nat cnt + length (purchased_by st sender l)) arr,
       cnt + N.of_nat (length (purchased_by st sender l))).
Proof.
  induction l as [|i l IH]; intros arr cnt Hlen.
  - unfold purchased_by. rewrite filter_nil. simpl.
    rewrite Nat.add_0_r, take_drop. do 2 f_equal. lia.
  - cbn [purchased_loop]. rewrite purchased_by_cons. cbn [length] in Hlen.
    destruct (has_access st i sender && negb (uploader (dataset st i) =? sender)).
    + replace (cnt <? N.of_nat (length arr)) with true
        by (symmetry; apply N.ltb_lt; lia).
      rewrite IH by (rewrite length_insert; lia).
      replace (N.to_nat (cnt + 1)) with (S (N.to_nat cnt)) by lia.
      rewrite (take_S_r _ _ i) by (apply list_lookup_insert_eq; lia).
      rewrite take_insert_ge by lia. rewrite drop_insert_lt by lia.
      cbn [length]. rewrite <- app_assoc. simpl.
      rewrite Nat.add_succ_r. do 2 f_equal. lia.
    + apply IH. lia.
Qed.

Lemma copy_loop_spec src :
  ∀ len start res,
  (start + len ≤ length src)%nat → (start + len ≤ length res)%nat →
  copy_loop (N.of_nat <$> seq start len) src res =
  inr (take start res ++ take len (drop start src) ++ drop (start + len) res).
Proof.
  induction len as [|len IH]; intros start res Hs Hr.
  - simpl. by rewrite Nat.add_0_r, take_drop.
  - cbn [seq fmap list_fmap copy_loop]. rewrite Nat2N.id.
    destruct (src !! start) as [v|] eqn:Hv;
      [|apply lookup_ge_None in Hv; lia].
    replace (N.of_nat start <? N.of_nat (length res)) with true
      by (symmetry; apply N.ltb_lt; lia).
    rewrite IH by (rewrite ?length_insert; lia).
    rewrite (take_S_r _ _ v) by (apply list_lookup_insert_eq; lia).
    rewrite take_insert_ge by lia. rewrite drop_insert_lt by lia.
    rewrite (drop_S src v start Hv). simpl.
    rewrite <- app_assoc. simpl. by rewrite Nat.add_succ_r.
Qed.

Lemma getMyPurchasedIds_filter st sender :
  getMyPurchasedIds st sender
  = inr (purchased_by st sender (ids (datasetCount st))).
Proof.
  unfold getMyPurchasedIds.
  set (F := purchased_by st sender (ids (datasetCount st))).
  assert (length F ≤ N.to_nat (datasetCount st))%nat as HF.
  { unfold F, purchased_by. etrans; [apply length_filter|].
    unfold ids. by rewrite length_fmap, length_seq. }
  rewrite purchased_loop_spec
    by (unfold ids; rewrite length_fmap, length_seq, length_replicate; lia).
  fold F. simpl. rewrite N.add_0_l. unfold ids at 1. rewrite Nat2N.id.
  rewrite copy_loop_spec;
    [|rewrite length_app; lia|rewrite length_replicate; lia].
  rewrite take_0, drop_0, Nat.add_0_l, (drop_replicate (length F) (length F)).
  rewrite Nat.sub_diag. simpl. by rewrite app_nil_r, take_app_length.
Qed.

(** ** Properties of the remaining entry points *)

(** X1. [addPaymentToken] by a caller who is not the owner, for the zero
    address, or for a token already accepted reverts with [NotOwner],
    [Zero] or [Exists] (tested in that order) before anything is written. *)
Theorem addPaymentToken_rejects sender token sym st :
  owner st ≠ sender ∨ token = zero_address ∨ isTokenAccepted st token = true →
  addPaymentToken sender token sym st =
    Revert (if negb (owner st =? sender) then NotOwner
            else if token =? zero_address then Zero else Exists) st ∧
  transact st (CallAddPaymentToken sender token sym) = st.
Proof.
  intros Hbad.
  assert (addPaymentToken sender token sym st =
    Revert (if negb (owner st =? sender) then NotOwner
            else if token =? zero_address then Zero else Exists) st) as Hrev.
  { rewrite addPaymentToken_run.
    destruct (owner st =? sender) eqn:Ho; simpl; [|done].
    destruct (token =? zero_address) eqn:Hz; [done|].
    destruct (isTokenAccepted st token) eqn:Ha; [done|].
    apply N.eqb_eq in Ho. apply N.eqb_neq in Hz.
    by destruct Hbad as [?|[?|?]]. }
  split; [done|]. unfold transact. simpl. by rewrite Hrev.
Qed.

Lemma addPaymentToken_rejects_witness :
  transact demo_listed (CallAddPaymentToken 1 100 "DUP") = demo_listed.
Proof.
  apply (addPaymentToken_rejects 1 100 "DUP" demo_listed).
  right; right. by vm_compute.
Defined.

(** X2. [addPaymentToken] by the owner for a fresh non-zero token succeeds:
    the token reads as accepted with the given symbol, it is stored at
    index [acceptedTokenCount], the count grows by one, one event is
    logged, and no other token, index slot, record, grant or earnings entry
    changes. *)
Theorem addPaymentToken_accepts sender token sym st :
  owner st = sender → token ≠ zero_address →
  isTokenAccepted st token = false → acceptedTokenCount st < Uint.max256 →
  ∃ st',
    addPaymentToken sender token sym st = Ok tt st' ∧
    payment_token st' token = mkPaymentToken token true sym ∧
    accepted_token_at st' (acceptedTokenCount st) = token ∧
    acceptedTokenCount st' = acceptedTokenCount st + 1 ∧
    (∀ t, t ≠ token → payment_token st' t = payment_token st t) ∧
    (∀ i, i ≠ acceptedTokenCount st →
          accepted_token_at st' i = accepted_token_at st i) ∧
    events st' = events st ++ [PaymentTokenAdded token sym] ∧
    datasets st' = datasets st ∧ datasetCount st' = datasetCount st ∧
    hasAccess st' = hasAccess st ∧
    publisherEarnings st' = publisherEarnings st ∧ owner st' = owner st.
Proof.
  intros Ho Hz Hnew Hc. exists (token_added token sym st).
  rewrite addPaymentToken_run.
  replace (owner st =? sender) with true by (symmetry; by apply N.eqb_eq).
  replace (token =? zero_address) with false by (symmetry; by apply N.eqb_neq).
  rewrite Hnew. simpl.
  replace (acceptedTokenCount st + 1 <=? Uint.max 256) with true
    by (symmetry; apply N.leb_le; unfold Uint.max256 in Hc; lia).
  split_and!; try done.
  - by rewrite payment_token_added, decide_True.
  - by rewrite accepted_token_at_added, decide_True.
  - intros t Ht. by rewrite payment_token_added, decide_False.
  - intros i Hi. by rewrite accepted_token_at_added, decide_False.
Qed.

Lemma addPaymentToken_accepts_witness :
  ∃ st', addPaymentToken 1 200 "NEW" demo_listed = Ok tt st' ∧
         payment_token st' 200 = mkPaymentToken 200 true "NEW".
Proof.
  destruct (addPaymentToken_accepts 1 200 "NEW" demo_listed)
    as (st' & H1 & H2 & _); [by vm_compute..|].
  exists st'. by split.
Defined.

(** X3. In every reachable state the slots [0 .. acceptedTokenCount-1] of
    [acceptedTokenByIndex] list exactly the accepted tokens, each once;
    the zero address is never accepted; an accepted token's record carries
    its own address; and the [PaymentTokenAdded] events list the same
    tokens in the same order. *)
Theorem token_registry_enumerates st :
  reachable st →
  (∀ t, isTokenAccepted st t = true ↔
        ∃ i, i < acceptedTokenCount st ∧ accepted_token_at st i = t) ∧
  (∀ i j, i < acceptedTokenCount st → j < acceptedTokenCount st →
          accepted_token_at st i = accepted_token_at st j → i = j) ∧
  isTokenAccepted st zero_address = false ∧
  (∀ t, isTokenAccepted st t = true → tokenAddress (payment_token st t) = t) ∧
  omap added_token (events st)
    = accepted_token_at st <$> ids (acceptedTokenCount st).
Proof.
  intros Hr. destruct (reachable_tokens_ok st Hr) as [T0 T1 T2 T3 T4 T5].
  split_and!; try done. intros t. split; [apply T4|].
  intros (i & Hi & <-). by apply T2.
Qed.

Lemma token_registry_enumerates_witness :
  omap added_token (events demo_sold)
  = accepted_token_at demo_sold <$> ids (acceptedTokenCount demo_sold).
Proof.
  apply (token_registry_enumerates demo_sold), reachable_demo_sold.
Defined.

Lemma exec_token_kept c st st' :
  exec c st = Ok tt st' →
  ∀ t, isTokenAccepted st t = true → payment_token st' t = payment_token st t.
Proof.
  apply (exec_R (λ s s', ∀ t, isTokenAccepted s t = true →
                              payment_token s' t = payment_token s t)); clear.
  - done.
  - intros a b c Hab Hbc t Ht. rewrite Hbc, Hab; [done..|].
    unfold isTokenAccepted. by rewrite Hab.
  - intros sender token sym st st' H t Ht.
    rewrite addPaymentToken_run in H.
    destruct (negb (owner st =? sender)); [done|].
    destruct (token =? zero_address); [done|].
    destruct (isTokenAccepted st token) eqn:Hn; [done|].
    destruct (_ <=? _); [|done]. simplify_eq.
    rewrite payment_token_added, decide_False; [done|]. congruence.
  - intros sender now cid an pub priv paid price st st' H t _.
    apply uploadDataset_Ok in H
      as (_ & _ & _ & _ & _ & _ & _ & _ & _ & _ & _ & Hp & _).
    unfold payment_token. by rewrite Hp.
  - intros sender id st st' H t _.
    by apply incrementViews_Ok in H as (_ & _ & ->).
  - intros sender id st st' H t _.
    by apply incrementDownloads_Ok in H as (_ & _ & ->).
  - intros tf sender id token st st' Htf H t Ht.
    apply purchaseDataset_Ok_state in H as (b & mid & Hcall & ->).
    by apply (Htf _ _ _ _ _ _ _ Hcall).
Qed.

(** X4. No sequence of calls removes or rewrites an accepted payment
    token: its record, symbol included, stays as it was added. *)
Theorem token_acceptance_permanent st calls t :
  isTokenAccepted st t = true →
  payment_token (fold_left transact calls st) t = payment_token st t ∧
  isTokenAccepted (fold_left transact calls st) t = true.
Proof.
  revert st. induction calls as [|c l IH]; intros st Ht; [done|]. simpl.
  assert (payment_token (transact st c) t = payment_token st t) as Hc.
  { unfold transact. destruct (exec c st) as [[] st'|] eqn:He; simpl; [|done].
    by apply (exec_token_kept c st st' He). }
  assert (isTokenAccepted (transact st c) t = true) as Ht'
    by (unfold isTokenAccepted; by rewrite Hc).
  destruct (IH _ Ht') as [IH1 IH2]. split; [congruence|done].
Qed.

Lemma token_acceptance_permanent_witness :
  isTokenAccepted
    (fold_left transact [CallAddPaymentToken 1 100 "X"] demo_listed) 100 = true.
Proof.
  apply (token_acceptance_permanent demo_listed
           [CallAddPaymentToken 1 100 "X"] 100).
  by vm_compute.
Defined.

Lemma uploadDataset_run sender now cid an pub priv paid price st :
  status st = NOT_ENTERED → cid ≠ "" → cid_used st cid = false →
  pub && priv = false → priv && paid = false → (paid = true → 0 < price) →
  datasetCount st < Uint.max256 →
  uploadDataset sender now cid an pub priv paid price st
  = Ok tt (uploaded sender now cid an pub priv paid price st).
Proof.
  intros Hs Hne Hfresh Hpp Hpr Hprice Hc.
  assert ((0 <? N.of_nat (String.length cid)) = true) as Hlen
    by (apply N.ltb_lt; destruct cid; [done|simpl; lia]).
  assert ((datasetCount st + 1 <=? Uint.max 256) = true) as Hfit
    by (apply N.leb_le; unfold Uint.max256 in Hc; lia).
  unfold uploadDataset, uploaded. mrun. rewrite Hs.
  change (cid_used (set_status ENTERED st) cid) with (cid_used st cid).
  rewrite Hfresh, Hlen.
  destruct pub, priv, paid; simpl in Hpp, Hpr; try done;
    cbv beta iota delta [negb andb]; proj; rewrite ?Hfit; try done.
  all: assert ((0 <? price) = true) as Hpos
         by (apply N.ltb_lt, Hprice; reflexivity).
  all: rewrite Hpos; cbv beta iota; proj; by rewrite Hfit.
Qed.

(** X5. From a top-level state, an upload with a fresh non-empty CID, flags
    that are not public-and-private nor private-and-paid, a positive price
    when paid, and room in the counter succeeds: the new id is the old
    dataset count, the record holds the arguments with zero views,
    downloads and earnings (timestamp and price truncated to their
    widths), the CID is marked used, the id is appended to the uploader's
    index, [DatasetUploaded] is logged, followed by [PublicDatasetListed]
    exactly when public and not private, and nothing else changes: no
    other record, CID mark or index, no grant, earnings entry or platform
    total, nothing of the token registry, and not the owner. *)
Theorem upload_succeeds sender now cid an pub priv paid price st :
  status st = NOT_ENTERED → cid ≠ "" → cid_used st cid = false →
  pub && priv = false → priv && paid = false → (paid = true → 0 < price) →
  datasetCount st < Uint.max256 →
  ∃ st',
    uploadDataset sender now cid an pub priv paid price st = Ok tt st' ∧
    datasetCount st' = datasetCount st + 1 ∧
    dataset st' (datasetCount st) =
      mkDataset cid an sender pub priv (Uint.cast 48 now) 0 0 paid
        (Uint.cast 128 price) 0 ∧
    cid_used st' cid = true ∧
    uploads_of st' sender = uploads_of st sender ++ [datasetCount st] ∧
    events st' =
      events st ++
      DatasetUploaded (datasetCount st) sender pub paid (Uint.cast 128 price) ::
      (if pub && negb priv then [PublicDatasetListed (datasetCount st) sender]
       else []) ∧
    (∀ j, j ≠ datasetCount st → dataset st' j = dataset st j) ∧
    (∀ c, c ≠ cid → cid_used st' c = cid_used st c) ∧
    (∀ u, u ≠ sender → uploads_of st' u = uploads_of st u) ∧
    hasAccess st' = hasAccess st ∧
    publisherEarnings st' = publisherEarnings st ∧
    totalPlatformEarnings st' = totalPlatformEarnings st ∧
    paymentTokens st' = paymentTokens st ∧
    acceptedTokenByIndex st' = acceptedTokenByIndex st ∧
    acceptedTokenCount st' = acceptedTokenCount st ∧
    owner st' = owner st ∧
    status st' = NOT_ENTERED.
Proof.
  intros Hs Hne Hfresh Hpp Hpr Hprice Hc.
  exists (uploaded sender now cid an pub priv paid price st).
  split; [by apply uploadDataset_run|].
  split_and!.
  - apply datasetCount_uploaded.
  - by rewrite dataset_uploaded, decide_True.
  - by rewrite cid_used_uploaded, decide_True.
  - by rewrite uploads_of_uploaded, decide_True.
  - apply events_uploaded.
  - intros j Hj. by rewrite dataset_uploaded, decide_False.
  - intros c Hcne. by rewrite cid_used_uploaded, decide_False.
  - intros u Hu. by rewrite uploads_of_uploaded, decide_False.
  - unfold uploaded. by destruct (pub && negb priv).
  - unfold uploaded. by destruct (pub && negb priv).
  - unfold uploaded. by destruct (pub && negb priv).
  - unfold uploaded. by destruct (pub && negb priv).
  - unfold uploaded. by destruct (pub && negb priv).
  - unfold uploaded. by destruct (pub && negb priv).
  - unfold uploaded. by destruct (pub && negb priv).
  - unfold uploaded. by destruct (pub && negb priv).
Qed.

Lemma upload_succeeds_witness :
  ∃ st', uploadDataset 4 2000 "B" "" false true false 0 demo_sold = Ok tt st' ∧
         datasetCount st' = datasetCount demo_sold + 1.
Proof.
  destruct (upload_succeeds 4 2000 "B" "" false true false 0 demo_sold)
    as (st' & H1 & H2 & _); [by vm_compute..|].
  exists st'. by split.
Defined.

(** X6. Right after a successful upload the uploader can read the new
    record with [getDataset]; any other caller can read it exactly when it
    was uploaded as public, and is refused with the view guard's error
    otherwise. *)
Theorem uploaded_record_visibility sender now cid an pub priv paid price st st' :
  exec (CallUploadDataset sender now cid an pub priv paid price) st = Ok tt st' →
  let id := datasetCount st in
  getDataset sender id st' = Ok (dataset st' id) st' ∧
  uploader (dataset st' id) = sender ∧
  views (dataset st' id) = 0 ∧ downloads (dataset st' id) = 0 ∧
  earnings (dataset st' id) = 0 ∧
  ∀ caller, caller ≠ sender →
    getDataset caller id st' =
    if pub then Ok (dataset st' id) st' else Revert No_view st'.
Proof.
  intros H id. simpl in H. unfold id. clear id.
  pose proof (uploadDataset_Ok_flags _ _ _ _ _ _ _ _ _ _ H) as (Hpp & _).
  apply uploadDataset_Ok_state in H as ->.
  set (st' := uploaded sender now cid an pub priv paid price st).
  assert (dataset st' (datasetCount st) =
          mkDataset cid an sender pub priv (Uint.cast 48 now) 0 0 paid
            (Uint.cast 128 price) 0) as Hnew
    by (unfold st'; by rewrite dataset_uploaded, decide_True).
  unfold getDataset, canView. mrun. rewrite Hnew. simpl.
  rewrite N.eqb_refl. simpl. split_and!; try done; [by rewrite Hnew|].
  intros caller Hne.
  replace (sender =? caller) with false
    by (symmetry; apply N.eqb_neq; congruence).
  simpl. destruct pub, priv; simpl; try done; by rewrite Hnew.
Qed.

Lemma uploaded_record_visibility_witness :
  getDataset 2 0 demo_listed = Ok (dataset demo_listed 0) demo_listed.
Proof.
  assert (exec (CallUploadDataset 2 1000 "A" "" true false true 10)
            (transact (initial 1) (CallAddPaymentToken 1 100 "TOK"))
          = Ok tt demo_listed) as H by by vm_compute.
  exact (proj1 (uploaded_record_visibility _ _ _ _ _ _ _ _ _ _ H)).
Defined.

(** X7. [uploadDataset] tests [_price > 0] on the [uint256] argument but
    stores [uint128(_price)]: a paid upload whose price is a non-zero
    multiple of [2^128] succeeds and records a paid dataset with price 0. *)
Theorem paid_upload_price_wraps sender now cid an pub k st :
  status st = NOT_ENTERED → cid ≠ "" → cid_used st cid = false →
  datasetCount st < Uint.max256 → 0 < k → k * 2 ^ 128 <= Uint.max256 →
  ∃ st',
    uploadDataset sender now cid an pub false true (k * 2 ^ 128) st = Ok tt st' ∧
    isPaid (dataset st' (datasetCount st)) = true ∧
    priceInFIL (dataset st' (datasetCount st)) = 0.
Proof.
  intros Hs Hne Hfresh Hc Hk _.
  exists (uploaded sender now cid an pub false true (k * 2 ^ 128) st).
  split; [apply uploadDataset_run; try done|].
  - by destruct pub.
  - intros _. lia.
  - rewrite dataset_uploaded, decide_True by done. simpl. split; [done|].
    unfold Uint.cast. apply N.Div0.mod_mul.
Qed.

Lemma paid_upload_price_wraps_witness :
  ∃ st',
    uploadDataset 4 2000 "B" "" true false true (1 * 2 ^ 128) demo_sold
      = Ok tt st' ∧
    isPaid (dataset st' (datasetCount demo_sold)) = true ∧
    priceInFIL (dataset st' (datasetCount demo_sold)) = 0.
Proof.
  apply (paid_upload_price_wraps 4 2000 "B" "" true 1 demo_sold);
    by vm_compute.
Defined.

(** X8. In every reachable state no two assigned ids carry the same
    dataset CID, no assigned record has an empty CID, and a CID is marked
    used exactly when some assigned record carries it. *)
Theorem cid_registry st :
  reachable st →
  (∀ i j, i < datasetCount st → j < datasetCount st →
          datasetCID (dataset st i) = datasetCID (dataset st j) → i = j) ∧
  (∀ c, cid_used st c = true ↔
        ∃ i, i < datasetCount st ∧ datasetCID (dataset st i) = c) ∧
  (∀ i, i < datasetCount st → datasetCID (dataset st i) ≠ "").
Proof.
  intros Hr. destruct (reachable_registry_ok st Hr) as [R1 R2 R3 R4 R5 R6 R7].
  split_and!; [done| |intros i Hi; by apply R1].
  intros c. split; [apply R3|]. intros (i & Hi & <-). by apply R1.
Qed.

Lemma cid_registry_witness : cid_used demo_sold "A" = true.
Proof.
  apply (cid_registry demo_sold reachable_demo_sold).
  exists 0. by vm_compute.
Defined.

(** X9. In every reachable state no stored record is both public and
    private, a private record is never paid, and a record that is paid, has
    earnings, or has a non-zero uploader sits at an assigned id. *)
Theorem record_flags st id :
  reachable st →
  ¬ (isPublic (dataset st id) = true ∧ isPrivate (dataset st id) = true) ∧
  (isPrivate (dataset st id) = true → isPaid (dataset st id) = false) ∧
  (isPaid (dataset st id) = true ∨ 0 < earnings (dataset st id) ∨
   uploader (dataset st id) ≠ zero_address → id < datasetCount st).
Proof.
  intros Hr. destruct (reachable_registry_ok st Hr) as [R1 R2 R3 R4 R5 R6 R7].
  destruct (reachable_inv st Hr) as [[I1 _ _] _].
  destruct (R4 id) as [Ha Hb]. split_and!.
  - intros [Hp Hq]. by rewrite Hp, Hq in Ha.
  - intros Hp. rewrite Hp in Hb. done.
  - intros Hsome.
    destruct (N.lt_ge_cases id (datasetCount st)) as [|Hge]; [done|].
    apply I1, blank_fields in Hge as (Hu & _ & _ & Hpaid & _ & He).
    destruct Hsome as [?|[?|?]]; [congruence|lia|done].
Qed.

Lemma record_flags_witness :
  ¬ (isPublic (dataset demo_sold 0) = true ∧
     isPrivate (dataset demo_sold 0) = true).
Proof. apply (record_flags demo_sold 0 reachable_demo_sold). Defined.

(** X10. In every reachable state [getMyDatasetIds] returns exactly the
    assigned ids whose uploader is the caller, in ascending order. *)
Theorem uploader_index st u :
  reachable st →
  getMyDatasetIds st u =
  filter (λ i, uploader (dataset st i) = u) (ids (datasetCount st)).
Proof.
  intros Hr. destruct (reachable_registry_ok st Hr) as [R1 R2 R3 R4 R5 R6 R7].
  apply R5.
Qed.

Lemma uploader_index_witness :
  getMyDatasetIds demo_sold 2 =
  filter (λ i, uploader (dataset demo_sold i) = 2) (ids (datasetCount demo_sold)).
Proof. apply uploader_index, reachable_demo_sold. Defined.

Lemma sumN_filter (P : N → Prop) `{!∀ i, Decision (P i)} (f : N → N) l :
  sumN ((λ i, if decide (P i) then f i else 0) <$> l)
  = sumN (f <$> filter P l).
Proof.
  induction l as [|x l IH]; [done|].
  rewrite fmap_cons, sumN_cons, filter_cons, IH.
  destruct (decide (P x)); [by rewrite fmap_cons, sumN_cons|lia].
Qed.

(** X11. In every reachable state [getMyEarnings] equals the sum, over the
    ids [getMyDatasetIds] returns, of the records' earnings, and
    [getDatasetEarnings] accepts the caller for each of those ids and
    returns that record's earnings. *)
Theorem earnings_by_index st u :
  reachable st →
  getMyEarnings st u
    = sumN ((λ i, earnings (dataset st i)) <$> getMyDatasetIds st u) ∧
  ∀ i, i ∈ getMyDatasetIds st u →
    getDatasetEarnings u i st = Ok (earnings (dataset st i)) st.
Proof.
  intros Hr. destruct (reachable_registry_ok st Hr) as [R1 R2 R3 R4 R5 R6 R7].
  destruct (reachable_inv st Hr) as [[_ _ I3] _].
  unfold getMyEarnings, getMyDatasetIds. rewrite R5, I3. split.
  - unfold owned_earnings. rewrite <- sumN_filter. apply sumN_ext.
    intros i _. destruct (uploader (dataset st i) =? u) eqn:Hu.
    + apply N.eqb_eq in Hu. by rewrite decide_True.
    + apply N.eqb_neq in Hu. by rewrite decide_False.
  - intros i [Hu _]%list_elem_of_filter.
    unfold getDatasetEarnings. mrun. rewrite Hu, N.eqb_refl. done.
Qed.

Lemma earnings_by_index_witness :
  getMyEarnings demo_sold 2
  = sumN ((λ i, earnings (dataset demo_sold i)) <$> getMyDatasetIds demo_sold 2).
Proof. apply (earnings_by_index demo_sold 2 reachable_demo_sold). Defined.

Lemma fold_preserves st calls : preserves st (fold_left transact calls st).
Proof.
  revert st. induction calls as [|c l IH]; intros st; simpl;
    [apply preserves_refl|].
  eapply preserves_trans; [apply transact_preserves|apply IH].
Qed.

(** X12. Once an id is assigned, no sequence of calls changes the CIDs,
    uploader, flags, timestamp or price of its record, and the dataset
    count never decreases. *)
Theorem listing_immutable st calls id :
  reachable st → id < datasetCount st →
  listing (dataset (fold_left transact calls st) id) = listing (dataset st id) ∧
  datasetCount st <= datasetCount (fold_left transact calls st).
Proof.
  intros Hr Hid. destruct (reachable_inv st Hr) as [Hinv _].
  destruct (fold_preserves st calls Hinv) as (_ & [E1 E2 _] & _).
  split; [by apply E2|done].
Qed.

Lemma listing_immutable_witness :
  listing (dataset (fold_left transact
             [CallUploadDataset 2 7 "A" "x" false true false 0;
              CallIncrementViews 2 0] demo_sold) 0)
  = listing (dataset demo_sold 0).
Proof.
  apply (listing_immutable demo_sold _ 0 reachable_demo_sold). by vm_compute.
Defined.

Lemma grows_refl s : grows s s.
Proof. split; [lia|]. intros. lia. Qed.

Lemma grows_trans a b c : grows a b → grows b c → grows a c.
Proof.
  intros [C1 G1] [C2 G2]. split; [lia|]. intros id Hid.
  specialize (G1 id Hid). specialize (G2 id ltac:(lia)). lia.
Qed.

Lemma grows_set_dataset id d' st :
  views (dataset st id) <= views d' →
  downloads (dataset st id) <= downloads d' →
  earnings (dataset st id) <= earnings d' →
  grows st (set_dataset id d' st).
Proof.
  intros Hv Hd He. split; [done|]. intros j _.
  destruct (decide (id = j)) as [<-|Hne].
  - by rewrite dataset_set_dataset_eq.
  - rewrite dataset_set_dataset_ne by done. lia.
Qed.

Lemma exec_grows c st st' : exec c st = Ok tt st' → grows st st'.
Proof.
  apply exec_R; clear.
  - apply grows_refl.
  - apply grows_trans.
  - intros sender token sym st st' H.
    apply addPaymentToken_Ok in H as (Hc & Hd & _). split; [lia|].
    intros id _. unfold dataset. rewrite Hd. lia.
  - intros sender now cid an pub priv paid price st st' H.
    apply uploadDataset_Ok_state in H as ->.
    unfold grows. rewrite datasetCount_uploaded. split; [lia|].
    intros id Hid. rewrite dataset_uploaded, decide_False by lia. lia.
  - intros sender id st st' H. apply incrementViews_Ok in H as (_ & _ & ->).
    apply grows_set_dataset; simpl; lia.
  - intros sender id st st' H. apply incrementDownloads_Ok in H as (_ & _ & ->).
    apply grows_set_dataset; simpl; lia.
  - intros tf sender id token st st' Htf H.
    apply purchaseDataset_Ok_state in H as (b & mid & Hcall & ->).
    eapply grows_trans; [apply (Htf _ _ _ _ _ _ _ Hcall)|].
    split; [done|]. intros j _.
    assert (datasets (settled sender id token mid) =
      <[id := with_earnings
         (earnings (dataset mid id) + priceInFIL (dataset mid id))
         (dataset mid id)]> (datasets mid)) as Hd by done.
    rewrite (dataset_insert _ _ _ _ j Hd). case_decide; [|lia].
    subst. simpl. lia.
Qed.

(** X13. For an assigned id, the views, downloads and earnings of its
    record never decrease, whatever calls follow. *)
Theorem counters_only_grow st calls id :
  id < datasetCount st →
  views (dataset st id) <= views (dataset (fold_left transact calls st) id) ∧
  downloads (dataset st id)
    <= downloads (dataset (fold_left transact calls st) id) ∧
  earnings (dataset st id)
    <= earnings (dataset (fold_left transact calls st) id).
Proof.
  intros Hid.
  assert (grows st (fold_left transact calls st)) as [_ Hg]; [|by apply Hg].
  clear. revert st. induction calls as [|c l IH]; intros st; simpl;
    [apply grows_refl|].
  eapply grows_trans; [|apply IH].
  unfold transact. destruct (exec c st) as [[] st'|] eqn:He; simpl;
    [by eapply exec_grows|apply grows_refl].
Qed.

Lemma counters_only_grow_witness :
  views (dataset demo_sold 0)
  <= views (dataset (fold_left transact [CallIncrementViews 2 0] demo_sold) 0).
Proof.
  apply (counters_only_grow demo_sold [CallIncrementViews 2 0] 0).
  by vm_compute.
Defined.

Lemma increment_outcome k sender id st :
  exec (increment k sender id) st =
  if may_bump k st sender id then
    if counter_value k (dataset st id) + 1 <=? Uint.max 48
    then Ok tt (set_dataset id (bump k (dataset st id)) st)
    else Revert Panic_overflow st
  else Revert (match k with Views => No_view | Downloads => No_download end) st.
Proof.
  destruct k; simpl; unfold incrementViews, incrementDownloads, canView,
    canDownload, qualifies; mrun.
  - destruct (_ || _); [|done]. by destruct (_ <=? _).
  - destruct (_ || _); [|done]. by destruct (_ <=? _).
Qed.

(** X14. A successful [incrementViews] (resp. [incrementDownloads]) has
    passed its guard, raises that one counter of that one record by exactly
    one without exceeding [2^48 - 1], and changes nothing else in the
    state. *)
Theorem increment_effect k sender id st st' :
  exec (increment k sender id) st = Ok tt st' →
  may_bump k st sender id = true ∧
  counter_value k (dataset st' id) = counter_value k (dataset st id) + 1 ∧
  counter_value k (dataset st' id) <= Uint.max 48 ∧
  listing (dataset st' id) = listing (dataset st id) ∧
  earnings (dataset st' id) = earnings (dataset st id) ∧
  (∀ k', k' ≠ k →
     counter_value k' (dataset st' id) = counter_value k' (dataset st id)) ∧
  (∀ j, j ≠ id → dataset st' j = dataset st j) ∧
  st' = set_dataset id (dataset st' id) st.
Proof.
  rewrite increment_outcome. intros H.
  destruct (may_bump k st sender id); [|done].
  destruct (_ <=? _) eqn:Hc; [|done]. apply N.leb_le in Hc.
  simplify_eq. rewrite dataset_set_dataset_eq. split_and!; try done.
  - by destruct k.
  - by destruct k.
  - by destruct k, (dataset st id).
  - by destruct k.
  - intros k' Hk. by destruct k, k'.
  - intros j Hj. by rewrite dataset_set_dataset_ne.
Qed.

Lemma increment_effect_witness :
  counter_value Downloads
    (dataset (transact demo_sold (increment Downloads 3 0)) 0)
  = counter_value Downloads (dataset demo_sold 0) + 1.
Proof.
  assert (exec (increment Downloads 3 0) demo_sold
          = Ok tt (transact demo_sold (increment Downloads 3 0))) as H
    by by vm_compute.
  apply (increment_effect Downloads 3 0 demo_sold _ H).
Defined.

(** X15. [canDownload] does not require [canView]: for a private dataset
    of a reachable ledger, a caller other than the uploader is refused by
    [getDataset] and [incrementViews], yet [incrementDownloads] by that
    caller succeeds and bumps the download counter. *)
Theorem private_dataset_download_counter st id sender :
  reachable st → isPrivate (dataset st id) = true →
  sender ≠ uploader (dataset st id) →
  downloads (dataset st id) < Uint.max 48 →
  getDataset sender id st = Revert No_view st ∧
  exec (CallIncrementViews sender id) st = Revert No_view st ∧
  exec (CallIncrementDownloads sender id) st =
    Ok tt (set_dataset id
             (with_downloads (downloads (dataset st id) + 1) (dataset st id))
             st).
Proof.
  intros Hr Hpriv Hne Hmax.
  destruct (reachable_registry_ok st Hr) as [_ _ _ R4 _ _ _].
  destruct (R4 id) as [Ha Hb]. rewrite Hpriv in Ha, Hb.
  rewrite andb_true_r in Ha. simpl in Hb.
  assert ((uploader (dataset st id) =? sender) = false) as Hu
    by (apply N.eqb_neq; congruence).
  split_and!.
  - unfold getDataset, canView. mrun. by rewrite Hu, Ha.
  - rewrite (increment_outcome Views). simpl. unfold qualifies.
    by rewrite Hu, Ha.
  - rewrite (increment_outcome Downloads). simpl. rewrite Hu, Hb. simpl.
    by replace (downloads (dataset st id) + 1 <=? Uint.max 48) with true
      by (symmetry; apply N.leb_le; lia).
Qed.

Lemma private_dataset_download_counter_witness :
  getDataset 9 0 demo_private = Revert No_view demo_private.
Proof.
  apply (private_dataset_download_counter demo_private 0 9); try by vm_compute.
  unfold demo_private. apply reach_call, reach_deploy.
Defined.

(** X16. [getMyPurchasedIds] never traps and returns, in ascending order,
    exactly the ids below the dataset count for which the caller holds a
    grant and is not the uploader. *)
Theorem getMyPurchasedIds_spec st sender :
  getMyPurchasedIds st sender =
  inr (filter (λ i, has_access st i sender = true ∧
                    uploader (dataset st i) ≠ sender)
         (ids (datasetCount st))).
Proof. apply getMyPurchasedIds_filter. Qed.

(** X17. In every reachable state [getMyPurchasedIds] lists every grant the
    caller holds (a grant is always on an assigned id whose uploader is
    someone else), and for each of them [getDataset] by the caller returns
    the record and the download guard lets the caller through. *)
Theorem purchased_ids_usable st sender :
  reachable st →
  getMyPurchasedIds st sender =
    inr (filter (λ i, has_access st i sender = true) (ids (datasetCount st))) ∧
  (∀ i, has_access st i sender = true →
     i < datasetCount st ∧ uploader (dataset st i) ≠ sender ∧
     getDataset sender i st = Ok (dataset st i) st ∧
     may_bump Downloads st sender i = true).
Proof.
  intros Hr. destruct (reachable_inv st Hr) as [Hinv _].
  destruct (reachable_settlement_ok st Hr) as [S1 _ _ _].
  assert (∀ i, has_access st i sender = true →
    i < datasetCount st ∧ uploader (dataset st i) ≠ sender ∧
    qualifies (dataset st i) = true) as Hfacts.
  { intros i Hi. destruct (inv_access _ Hinv _ _ Hi) as [Hq _].
    split_and!; [|by apply S1|done].
    apply assigned_of_public; [done|]. unfold qualifies in Hq.
    by apply andb_true_iff in Hq as [? _]. }
  split.
  - rewrite getMyPurchasedIds_filter. unfold purchased_by. f_equal.
    apply list_filter_iff. intros i. split; [by intros [? _]|].
    intros Hi. split; [done|]. by apply Hfacts.
  - intros i Hi. destruct (Hfacts i Hi) as (Hlt & Hne & Hq).
    split_and!; try done.
    + unfold getDataset, canView. mrun. unfold qualifies in Hq.
      by rewrite Hq, orb_true_r.
    + simpl. by rewrite Hi, orb_true_r.
Qed.

Lemma purchased_ids_usable_witness :
  getMyPurchasedIds demo_sold 3 =
  inr (filter (λ i, has_access demo_sold i 3 = true)
         (ids (datasetCount demo_sold))).
Proof. apply (purchased_ids_usable demo_sold 3 reachable_demo_sold). Defined.

(** X18. In every reachable state the ids of the [DatasetUploaded] events,
    in log order, are [0 .. totalDatasets-1], and the ids of the
    [PublicDatasetListed] events are exactly the public, non-private ids in
    ascending order. *)
Theorem upload_log st :
  reachable st →
  omap uploaded_id (events st) = ids (totalDatasets st) ∧
  omap listed_id (events st) =
    filter (λ i, qualifies (dataset st i) = true) (ids (totalDatasets st)).
Proof.
  intros Hr. destruct (reachable_registry_ok st Hr) as [_ _ _ _ _ R6 R7].
  by split.
Qed.

Lemma upload_log_witness :
  omap uploaded_id (events demo_sold) = ids (totalDatasets demo_sold).
Proof. apply (upload_log demo_sold reachable_demo_sold). Defined.

(** X19. In every reachable state a grant is set exactly when the log holds
    a [DatasetPurchased] event for that id and buyer, and
    [totalPlatformEarnings] is the sum of the amounts of those events. *)
Theorem purchase_log st :
  reachable st →
  (∀ id a, has_access st id a = true ↔
     ∃ publisher amount token,
       DatasetPurchased id a publisher amount token ∈ events st) ∧
  totalPlatformEarnings st = sumN (omap purchase_amount (events st)).
Proof.
  intros Hr. destruct (reachable_settlement_ok st Hr) as [_ _ S3 S4].
  by split.
Qed.

Lemma purchase_log_witness :
  totalPlatformEarnings demo_sold
  = sumN (omap purchase_amount (events demo_sold)).
Proof. apply (purchase_log demo_sold reachable_demo_sold). Defined.

(** X20. In every reachable state [totalPlatformEarnings] equals the sum of
    the earnings of all assigned records. *)
Theorem platform_total st :
  reachable st → totalPlatformEarnings st = total_earnings st.
Proof.
  intros Hr. by destruct (reachable_settlement_ok st Hr) as [_ S2 _ _].
Qed.

Lemma platform_total_witness :
  totalPlatformEarnings demo_sold = total_earnings demo_sold.
Proof. apply platform_total, reachable_demo_sold. Defined.

(** X21. A top-level [purchaseDataset] whose checks do not all pass reverts
    with the reason of the first failing one, in the order not public,
    not paid, already purchased, own dataset, token not accepted; it has
    written only the guard flag, and the transaction leaves the state
    unchanged. *)
Theorem purchase_refused st sender id token reentry answer e :
  status st = NOT_ENTERED →
  purchase_refusal st sender id token = Some e →
  exec (CallPurchaseDataset sender id token reentry answer) st
    = Revert e (set_status ENTERED st) ∧
  transact st (CallPurchaseDataset sender id token reentry answer) = st.
Proof.
  intros Hs Href.
  assert (exec (CallPurchaseDataset sender id token reentry answer) st
          = Revert e (set_status ENTERED st)) as Hrev.
  { simpl. unfold purchaseDataset. mrun. rewrite Hs.
    unfold purchase_refusal, qualifies, isTokenAccepted in Href.
    change (dataset (set_status ENTERED st) id) with (dataset st id).
    destruct (isPublic (dataset st id) && negb (isPrivate (dataset st id)));
      simpl in Href; [|by simplify_eq].
    cbv beta iota. destruct (isPaid (dataset st id)); simpl in Href;
      [|by simplify_eq].
    cbv beta iota.
    change (has_access (set_status ENTERED st) id sender)
      with (has_access st id sender).
    destruct (has_access st id sender); simpl in Href; [by simplify_eq|].
    cbv beta iota delta [negb].
    destruct (uploader (dataset st id) =? sender); [by simplify_eq|].
    cbv beta iota.
    change (payment_token (set_status ENTERED st) token)
      with (payment_token st token).
    destruct (isAccepted (payment_token st token)); simpl in Href;
      [done|by simplify_eq]. }
  split; [done|]. unfold transact. by rewrite Hrev.
Qed.

Lemma purchase_refused_witness :
  exec (CallPurchaseDataset 2 0 100 [] TransferTrue) demo_listed
  = Revert Own (set_status ENTERED demo_listed).
Proof.
  apply (purchase_refused demo_listed 2 0 100 [] TransferTrue Own);
    by vm_compute.
Defined.

Lemma purchaseDataset_run tf sender id token st b mid :
  status st = NOT_ENTERED →
  purchase_refusal st sender id token = None →
  tf token sender (uploader (dataset st id)) (priceInFIL (dataset st id))
    (set_status ENTERED st) = Ok b mid →
  earnings (dataset mid id) + priceInFIL (dataset mid id) <= Uint.max 128 →
  earned mid (uploader (dataset mid id)) + priceInFIL (dataset mid id)
    <= Uint.max 128 →
  totalPlatformEarnings mid + priceInFIL (dataset mid id) <= Uint.max 128 →
  purchaseDataset tf sender id token st = Ok tt (settled sender id token mid).
Proof.
  intros Hs Href Htf H1 H2 H3.
  unfold purchase_refusal, qualifies, isTokenAccepted in Href.
  unfold purchaseDataset, settled. mrun. rewrite Hs.
  change (dataset (set_status ENTERED st) id) with (dataset st id).
  destruct (isPublic (dataset st id) && negb (isPrivate (dataset st id)));
    simpl in Href; [|done].
  cbv beta iota. destruct (isPaid (dataset st id)); simpl in Href; [|done].
  cbv beta iota.
  change (has_access (set_status ENTERED st) id sender)
    with (has_access st id sender).
  destruct (has_access st id sender); simpl in Href; [done|].
  cbv beta iota delta [negb].
  destruct (uploader (dataset st id) =? sender); [done|].
  cbv beta iota.
  change (payment_token (set_status ENTERED st) token)
    with (payment_token st token).
  destruct (isAccepted (payment_token st token)); simpl in Href; [|done].
  cbv beta iota. rewrite Htf.
  change (dataset (set_hasAccess id sender true mid) id) with (dataset mid id).
  apply N.leb_le in H1, H2, H3. rewrite H1.
  rewrite !dataset_set_dataset_eq.
  cbn [with_earnings uploader priceInFIL earnings].
  match goal with |- context [earned ?s (uploader (dataset mid id))] =>
    change (earned s (uploader (dataset mid id)))
      with (earned mid (uploader (dataset mid id)))
  end.
  rewrite H2.
  match goal with |- context [dataset ?s id] =>
    lazymatch s with
    | mid => fail
    | _ => replace (dataset s id)
             with (with_earnings
                     (earnings (dataset mid id) + priceInFIL (dataset mid id))
                     (dataset mid id))
             by (unfold dataset; proj; by rewrite lookup_insert_eq)
    end
  end.
  cbn [with_earnings uploader priceInFIL earnings]. proj.
  rewrite H3. cbv beta iota. unfold dataset. proj.
  rewrite lookup_insert_eq. done.
Qed.

Lemma exec_nested_total c st st' :
  exec c st = Ok tt st' →
  status st = ENTERED →
  status st' = ENTERED ∧ totalPlatformEarnings st' = totalPlatformEarnings st.
Proof.
  apply (exec_R (λ s s', status s = ENTERED →
    status s' = ENTERED ∧ totalPlatformEarnings s' = totalPlatformEarnings s));
    clear.
  - done.
  - intros a b c Hab Hbc Ha. destruct (Hab Ha) as [Hb T1].
    destruct (Hbc Hb) as [Hc T2]. split; congruence.
  - intros sender token sym st st' H Hs.
    by apply addPaymentToken_Ok_state in H as ->.
  - intros sender now cid an pub priv paid price st st' H Hs.
    apply uploadDataset_Ok in H as (Hs' & _). congruence.
  - intros sender id st st' H. by apply incrementViews_Ok in H as (_ & _ & ->).
  - intros sender id st st' H.
    by apply incrementDownloads_Ok in H as (_ & _ & ->).
  - intros tf sender id token st st' _ H Hs.
    apply purchaseDataset_Ok in H as (Hs' & _). congruence.
Qed.

Lemma reentry_nested_total reentry s :
  status s = ENTERED →
  totalPlatformEarnings (fold_left (λ s c, commit s (exec c s)) reentry s)
  = totalPlatformEarnings s.
Proof.
  revert s. induction reentry as [|c l IH]; intros s Hs; simpl; [done|].
  destruct (exec c s) as [[] s'|] eqn:He; simpl; [|by apply IH].
  destruct (exec_nested_total c s s' He Hs) as [Hs' Ht].
  rewrite IH by done. done.
Qed.

(** X22. A top-level [purchaseDataset] that passes its checks, whose token
    returns from [transferFrom] (with either boolean, and whatever calls it
    nests), and whose three [uint128] additions fit, succeeds: the grant is
    set, [totalPlatformEarnings] grows by the price, one [DatasetPurchased]
    event is logged and the guard is released. *)
Theorem purchase_succeeds st sender id token reentry answer :
  status st = NOT_ENTERED →
  purchase_refusal st sender id token = None →
  answer ≠ TransferReverts →
  earnings (dataset st id) + priceInFIL (dataset st id) <= Uint.max 128 →
  earned st (uploader (dataset st id)) + priceInFIL (dataset st id)
    <= Uint.max 128 →
  totalPlatformEarnings st + priceInFIL (dataset st id) <= Uint.max 128 →
  ∃ st',
    exec (CallPurchaseDataset sender id token reentry answer) st = Ok tt st' ∧
    has_access st' id sender = true ∧
    totalPlatformEarnings st'
      = totalPlatformEarnings st + priceInFIL (dataset st id) ∧
    events st' =
      events (fold_left (λ s c, commit s (exec c s)) reentry
                (set_status ENTERED st)) ++
      [DatasetPurchased id sender (uploader (dataset st id))
         (priceInFIL (dataset st id)) token] ∧
    status st' = NOT_ENTERED.
Proof.
  intros Hs Href Hans H1 H2 H3.
  set (mid := fold_left (λ s c, commit s (exec c s)) reentry
                (set_status ENTERED st)).
  destruct (reentry_nested reentry (set_status ENTERED st) eq_refl)
    as (_ & Hacc & Hpe & _ & Hrec).
  fold mid in Hacc, Hpe, Hrec.
  pose proof (reentry_nested_total reentry (set_status ENTERED st) eq_refl)
    as Htot.
  fold mid in Htot.
  change (totalPlatformEarnings (set_status ENTERED st))
    with (totalPlatformEarnings st) in Htot.
  destruct (Hrec id) as [Hl He].
  change (dataset (set_status ENTERED st) id) with (dataset st id) in Hl, He.
  apply listing_fields in Hl as (_ & Hu & _ & _ & _ & Hp & _).
  assert (earned mid (uploader (dataset st id))
          = earned st (uploader (dataset st id))) as Hearned
    by (unfold earned; by rewrite Hpe).
  exists (settled sender id token mid). split.
  - simpl. apply (purchaseDataset_run _ _ _ _ _
      (match answer with TransferFalse => false | _ => true end) mid);
      try done.
    + unfold token_call. mrun. by destruct answer.
    + by rewrite He, Hp.
    + by rewrite Hu, Hp, Hearned.
    + by rewrite Hp, Htot.
  - unfold settled. split_and!; try done.
    + unfold has_access. proj. by rewrite lookup_insert_eq.
    + proj. by rewrite Hp, Htot.
    + proj. by rewrite Hu, Hp.
Qed.

Lemma purchase_succeeds_witness :
  ∃ st',
    exec (CallPurchaseDataset 3 0 100 [] TransferTrue) demo_listed = Ok tt st' ∧
    has_access st' 0 3 = true.
Proof.
  destruct (purchase_succeeds demo_listed 3 0 100 [] TransferTrue)
    as (st' & H1 & H2 & _); try by vm_compute.
  exists st'. by split.
Defined.

(** ** Contract address check of the front end *)

Lemma prefix_occurs sub s c :
  String.prefix sub s = true → occurs c sub → occurs c s.
Proof.
  revert s. induction sub as [|a sub IH]; intros s Hp Hc; [done|].
  destruct s as [|b s]; [done|]. simpl in Hp.
  destruct (ascii_dec a b) as [->|]; [|done].
  destruct Hc as [->|Hc]; [by left|]. right. by apply IH.
Qed.

Lemma includes_occurs s sub c :
  includes s sub = true → occurs c sub → occurs c s.
Proof.
  induction s as [|a s IH]; simpl; intros Hi Hc.
  - rewrite orb_false_r in Hi. by apply (prefix_occurs sub "" c).
  - apply orb_true_iff in Hi as [Hp|Hi].
    + by apply (prefix_occurs sub (String a s) c).
    + right. by apply IH.
Qed.

Lemma hex_digits_to_end_spec n s :
  hex_digits_to_end n s = true →
  String.length s = n ∧ ∀ c, occurs c s → is_hex_digit c = true.
Proof.
  revert s. induction n as [|n IH]; intros [|a s]; simpl; try done.
  intros [Ha Hs]%andb_true_iff. destruct (IH s Hs) as [Hl Hc].
  split; [by rewrite Hl|]. intros c [<-|Hcs]; [done|by apply Hc].
Qed.

Lemma address_regex_test_spec s :
  address_regex_test s = true →
  String.length s = 42%nat ∧
  ∀ c, occurs c s → c = "0"%char ∨ c = "x"%char ∨ is_hex_digit c = true.
Proof.
  destruct s as [|a [|b rest]]; try done;
    [by destruct a as [[] [] [] [] [] [] [] []]|].
  destruct a as [[] [] [] [] [] [] [] []]; try done.
  destruct b as [[] [] [] [] [] [] [] []]; try done.
  cbn [address_regex_test].
  intros [Hl Hc]%hex_digits_to_end_spec. split; [simpl; by rewrite Hl|].
  intros c [<-|[<-|H]]; [by left|by right; left|right; right; by apply Hc].
Qed.

(** X23. On strings, [isValidContractAddress] returns exactly what its final
    regular-expression test returns (the placeholder tests never decide),
    and what it accepts is [0x] followed by 40 hexadecimal digits, 42
    characters in all. *)
Theorem isValidContractAddress_is_regex s :
  isValidContractAddress s = address_regex_test s ∧
  (isValidContractAddress s = true →
     String.length s = 42%nat ∧
     ∃ rest, s = String "0" (String "x" rest) ∧
             ∀ c, occurs c rest → is_hex_digit c = true).
Proof.
  assert (isValidContractAddress s = address_regex_test s) as Heq.
  { unfold isValidContractAddress.
    destruct (String.eqb s "") eqn:He;
      [apply String.eqb_eq in He; by subst|].
    rewrite orb_false_r.
    destruct (address_regex_test s) eqn:Hre;
      [|by destruct (includes s "YOUR_CONTRACT" || includes s "0xYOUR")].
    apply address_regex_test_spec in Hre as [_ Hc].
    assert (¬ occurs "Y"%char s) as HY.
    { intros H. apply Hc in H as [?|[?|?]]; done. }
    destruct (includes s "YOUR_CONTRACT") eqn:H1.
    { exfalso. apply HY. apply (includes_occurs _ _ _ H1). by left. }
    destruct (includes s "0xYOUR") eqn:H2; [|done].
    exfalso. apply HY. apply (includes_occurs _ _ _ H2). right; right. by left. }
  split; [done|]. rewrite Heq. intros Hre.
  pose proof (address_regex_test_spec s Hre) as [Hl _]. split; [done|].
  destruct s as [|a [|b rest]]; try done;
    try (by destruct a as [[] [] [] [] [] [] [] []]).
  destruct a as [[] [] [] [] [] [] [] []]; try done.
  destruct b as [[] [] [] [] [] [] [] []]; try done.
  cbn [address_regex_test] in Hre.
  exists rest. split; [done|]. by apply hex_digits_to_end_spec in Hre as [_ ?].
Qed.

Lemma isValidContractAddress_is_regex_witness :
  String.length "0x00000000000000000000000000000000000000Ff" = 42%nat.
Proof.
  apply (proj2 (isValidContractAddress_is_regex
                  "0x00000000000000000000000000000000000000Ff")).
  by vm_compute.
Defined.

